(** * Prompt Engineering Toolkit: the variant pipeline of [server.js]

    A shallow embedding of the pure core of [server.js] (the five template
    transformers, [escapeRegExp], [evaluatePrompt] and the two endpoints that
    call them) together with the part of the JavaScript runtime they rely on:
    strings as sequences of UTF-16 code units, the fragment of the regular
    expression language the program builds, [String.prototype.replace],
    [RegExp.prototype.test], and Number arithmetic on binary64 values.  The
    endpoints that call the model service and the export endpoint are
    embedded with the requests and the file-system calls they make. *)

From Stdlib Require Import List Bool Arith NArith ZArith QArith Qround Qabs Qpower Qfield.
From Stdlib Require Import Lia Lqa.
From Stdlib Require Import Ascii String.
From Stdlib Require DecimalString DecimalNat DecimalFacts.
From Stdlib Require Import SpecFloat.
Import ListNotations.
Close Scope Q_scope.

Set Implicit Arguments.

(* ================================================================== *)
(** ** JavaScript strings *)
(* ================================================================== *)

Module JSString.

(** A String value is a finite sequence of 16-bit code units; [length],
    indexing, [slice] and the regular expression engine (without the [u]
    flag) all work on code units. *)
Definition codeUnit := N.
Definition jsstring := list codeUnit.

Definition cu (a : ascii) : codeUnit := N_of_ascii a.

(** An ASCII literal of the source text as a String value. *)
Definition str (s : string) : jsstring := map cu (list_ascii_of_string s).

Definition LF : codeUnit := 10%N.

Definition inRange (lo hi c : codeUnit) : bool := (lo <=? c)%N && (c <=? hi)%N.

Definition mem (c : codeUnit) (cs : list codeUnit) : bool := existsb (N.eqb c) cs.

(** WhiteSpace and LineTerminator code points, as stripped by [trim]. *)
Definition isWhiteSpace (c : codeUnit) : bool :=
  mem c [0x9; 0xA; 0xB; 0xC; 0xD; 0x20; 0xA0; 0x1680; 0x2028; 0x2029;
         0x202F; 0x205F; 0x3000; 0xFEFF]%N
  || inRange 0x2000%N 0x200A%N c.

Fixpoint trimStart (s : jsstring) : jsstring :=
  match s with
  | c :: s' => if isWhiteSpace c then trimStart s' else s
  | [] => []
  end.

Definition trimEnd (s : jsstring) : jsstring := rev (trimStart (rev s)).

(** [s.trim()] *)
Definition trim (s : jsstring) : jsstring := trimEnd (trimStart s).

(** [s.slice(0, n)] for a non-negative [n] *)
Definition slice0 (n : nat) (s : jsstring) : jsstring := firstn n s.

(** [xs.join(sep)] on an array of strings *)
Fixpoint join (sep : jsstring) (xs : list jsstring) : jsstring :=
  match xs with
  | [] => []
  | [x] => x
  | x :: rest => x ++ sep ++ join sep rest
  end.

(** The decimal rendering of a non-negative integer inside a template
    literal. *)
Definition decimal (n : nat) : jsstring :=
  str (DecimalString.NilZero.string_of_uint (Nat.to_uint n)).

End JSString.
Export JSString.

(* ================================================================== *)
(** ** Regular expressions *)
(* ================================================================== *)

(** The simple upper-case mapping of the Unicode Default Case Conversion on
    single code units is a table of the host, not of this program.  It is only
    consulted for code units from 128 on; where the upper-case form is not a
    single code unit the table is expected to return its argument. *)
Class UnicodeCase := { unicodeUpper : codeUnit -> codeUnit }.

Module JSRegExp.

(** The fragment of the pattern language that [server.js] writes or builds:
    a single alternative of terms without quantifiers or groups. *)
Inductive term :=
| Char (c : codeUnit)                       (* a PatternCharacter or an IdentityEscape *)
| Dot                                       (* [.] *)
| Class (negated : bool) (members : list codeUnit)  (* [[...]] of single characters *)
| Bol                                       (* [^] *)
| Eol                                       (* [$] *)
| WordBoundary                              (* [\b] *)
| NotWordBoundary.                          (* [\B] *)

Record Flags := { global : bool; ignoreCase : bool }.

Record RegExp := { source : list term; flags : Flags }.

(** SyntaxCharacter :: one of [^ $ \ . * + ? ( ) [ ] { } |] *)
Definition syntaxCharacters : list codeUnit := str "^$\.*+?()[]{}|".
Definition isSyntaxCharacter (c : codeUnit) : bool := mem c syntaxCharacters.

(** *** Parsing a pattern

    [None] stands for a SyntaxError or for a pattern outside the fragment
    above (quantifiers, groups, alternatives, class ranges, back references
    and the remaining escapes).  Outside a class an unescaped closing
    bracket or brace stands for itself, as Node reads it.  [cls] is
    [Some (negated, members so far)] while the parser is inside a character
    class. *)
Fixpoint parseTerms (cls : option (bool * list codeUnit)) (p : jsstring)
  : option (list term) :=
  match cls, p with
  | None, [] => Some []
  | Some _, [] => None
  | None, c :: p' =>
      if (c =? cu "\")%N then
        match p' with
        | d :: p'' =>
            if (d =? cu "b")%N then option_map (cons WordBoundary) (parseTerms None p'')
            else if (d =? cu "B")%N then option_map (cons NotWordBoundary) (parseTerms None p'')
            else if isSyntaxCharacter d || (d =? cu "/")%N
                 then option_map (cons (Char d)) (parseTerms None p'')
            else None
        | [] => None
        end
      else if (c =? cu ".")%N then option_map (cons Dot) (parseTerms None p')
      else if (c =? cu "^")%N then option_map (cons Bol) (parseTerms None p')
      else if (c =? cu "$")%N then option_map (cons Eol) (parseTerms None p')
      else if (c =? cu "[")%N then
        match p' with
        | d :: p'' =>
            if (d =? cu "^")%N then parseTerms (Some (true, [])) p''
            else parseTerms (Some (false, [])) p'
        | [] => None
        end
      else if mem c (str "*+?(){|") then None
      else option_map (cons (Char c)) (parseTerms None p')
  | Some (neg, acc), c :: p' =>
      if (c =? cu "]")%N then option_map (cons (Class neg (rev acc))) (parseTerms None p')
      else if (c =? cu "\")%N then
        match p' with
        | d :: p'' =>
            if isSyntaxCharacter d || (d =? cu "/")%N || (d =? cu "-")%N
            then parseTerms (Some (neg, d :: acc)) p''
            else None
        | [] => None
        end
      else if (c =? cu "-")%N then None
      else parseTerms (Some (neg, c :: acc)) p'
  end.

Fixpoint parseFlags (f : jsstring) (acc : Flags) : option Flags :=
  match f with
  | [] => Some acc
  | c :: f' =>
      if (c =? cu "g")%N then
        if global acc then None
        else parseFlags f' {| global := true; ignoreCase := ignoreCase acc |}
      else if (c =? cu "i")%N then
        if ignoreCase acc then None
        else parseFlags f' {| global := global acc; ignoreCase := true |}
      else None
  end.

(** [new RegExp(pattern, flags)], and a regular expression literal
    [/pattern/flags]. *)
Definition RegExp_new (pattern flagText : jsstring) : option RegExp :=
  match parseTerms None pattern,
        parseFlags flagText {| global := false; ignoreCase := false |} with
  | Some ts, Some fl => Some {| source := ts; flags := fl |}
  | _, _ => None
  end.

(** *** Matching *)

(** The word characters of [\b]: [A-Z a-z 0-9 _]. *)
Definition isWordChar (c : codeUnit) : bool :=
  inRange (cu "a") (cu "z") c || inRange (cu "A") (cu "Z") c
  || inRange (cu "0") (cu "9") c || (c =? cu "_")%N.

Definition isWordCharAt (c : option codeUnit) : bool :=
  match c with Some x => isWordChar x | None => false end.

Definition isLineTerminator (c : codeUnit) : bool :=
  mem c [0xA; 0xD; 0x2028; 0x2029]%N.

Section Matcher.
Context {UC : UnicodeCase}.

(** Canonicalize of the specification, without the [u] flag: the upper
    case form when it is a single code unit, except that a code unit
    from 128 on is never mapped into ASCII. *)
Definition Canonicalize (ic : bool) (ch : codeUnit) : codeUnit :=
  if negb ic then ch
  else if (ch <? 128)%N then
    (if inRange (cu "a") (cu "z") ch then ch - 32 else ch)%N
  else
    let u := unicodeUpper ch in
    if (u <? 128)%N then ch else u.

Definition charMatches (ic : bool) (c x : codeUnit) : bool :=
  (Canonicalize ic c =? Canonicalize ic x)%N.

Definition classMatches (ic : bool) (neg : bool) (members : list codeUnit)
           (x : codeUnit) : bool :=
  xorb neg (existsb (fun a => charMatches ic a x) members).

(** One attempt at the position whose previous code unit is [prev] and
    whose remaining input is [rest]; the result is the number of code
    units the match consumes. *)
Fixpoint matchTerms (ic : bool) (ts : list term) (prev : option codeUnit)
         (rest : jsstring) : option nat :=
  match ts with
  | [] => Some 0
  | t :: ts' =>
      let consume (ok : codeUnit -> bool) :=
        match rest with
        | x :: rest' =>
            if ok x then option_map S (matchTerms ic ts' (Some x) rest')
            else None
        | [] => None
        end in
      let assert (b : bool) :=
        if b then matchTerms ic ts' prev rest else None in
      let atBoundary := xorb (isWordCharAt prev) (isWordCharAt (hd_error rest)) in
      match t with
      | Char c => consume (charMatches ic c)
      | Dot => consume (fun x => negb (isLineTerminator x))
      | Class neg members => consume (classMatches ic neg members)
      | Bol => assert (match prev with None => true | Some _ => false end)
      | Eol => assert (match rest with [] => true | _ => false end)
      | WordBoundary => assert atBoundary
      | NotWordBoundary => assert (negb atBoundary)
      end
  end.

(** RegExpBuiltinExec for a regular expression that is not sticky: the
    first index from the current one at which an attempt succeeds,
    with the length of the match. *)
Fixpoint searchFrom (ic : bool) (ts : list term) (prev : option codeUnit)
         (rest : jsstring) (index : nat) : option (nat * nat) :=
  match matchTerms ic ts prev rest with
  | Some len => Some (index, len)
  | None =>
      match rest with
      | x :: rest' => searchFrom ic ts (Some x) rest' (S index)
      | [] => None
      end
  end.

(** [r.test(input)] for a regular expression without the [g] flag, whose
    search always starts at index 0. *)
Definition test (r : RegExp) (input : jsstring) : bool :=
  match searchFrom (ignoreCase (flags r)) (source r) None input 0 with
  | Some _ => true
  | None => false
  end.

(** GetSubstitution for a match without capture groups: [$$], [$&],
    [$`] and [$'] are expanded, any other [$] stands for itself. *)
Fixpoint GetSubstitution (matched before after template : jsstring) : jsstring :=
  match template with
  | [] => []
  | c :: t' =>
      if (c =? cu "$")%N then
        match t' with
        | d :: t'' =>
            if (d =? cu "$")%N then cu "$" :: GetSubstitution matched before after t''
            else if (d =? cu "&")%N then matched ++ GetSubstitution matched before after t''
            else if (d =? cu "`")%N then before ++ GetSubstitution matched before after t''
            else if (d =? cu "'")%N then after ++ GetSubstitution matched before after t''
            else c :: GetSubstitution matched before after t'
        | [] => [c]
        end
      else c :: GetSubstitution matched before after t'
  end.

(** The scan of [RegExp.prototype[Symbol.replace]].  [seen] is the input
    already passed, last code unit first; [skip] counts the code units of
    the current match that are still to be passed.  With the [g] flag the
    scan resumes at the end of each match, one code unit further after an
    empty match; without it the first match is the only one replaced. *)
Fixpoint replaceFrom (r : RegExp) (replacement : jsstring)
         (seen rest : jsstring) (skip : nat) {struct rest} : jsstring :=
  match skip with
  | S k =>
      match rest with
      | x :: rest' => replaceFrom r replacement (x :: seen) rest' k
      | [] => []
      end
  | O =>
      match matchTerms (ignoreCase (flags r)) (source r) (hd_error seen) rest with
      | Some len =>
          let sub := GetSubstitution (firstn len rest) (rev seen) (skipn len rest)
                                     replacement in
          if global (flags r) then
            match len, rest with
            | O, x :: rest' => sub ++ x :: replaceFrom r replacement (x :: seen) rest' 0
            | S k, x :: rest' => sub ++ replaceFrom r replacement (x :: seen) rest' k
            | _, [] => sub
            end
          else sub ++ skipn len rest
      | None =>
          match rest with
          | x :: rest' => x :: replaceFrom r replacement (x :: seen) rest' 0
          | [] => []
          end
      end
  end.

(** [input.replace(r, replacement)] with a string replacement. *)
Definition replace (r : RegExp) (replacement : jsstring) (input : jsstring) : jsstring :=
  replaceFrom r replacement [] input 0.
End Matcher.

End JSRegExp.
Export JSRegExp.

(* ================================================================== *)
(** ** Numbers *)
(* ================================================================== *)

Module JSNumber.

Local Open Scope Q_scope.

(** A finite Number is a binary64 value, here the rational it denotes.
    Every arithmetic operation returns the exact result rounded to the
    nearest binary64 value, ties to the even significand.  (The program
    never leaves the finite range: it divides by a length only behind a
    test that the length is not zero.) *)
Definition Number := Q.

Definition pow2 (e : Z) : Q := (2 # 1) ^ e.

(** [floor (log2 q)] for a positive [q]. *)
Definition ilog2 (q : Q) : Z :=
  let k := (Z.log2 (Qnum q) - Z.log2 (Zpos (Qden q)))%Z in
  if Qle_bool (pow2 k) q then k else (k - 1)%Z.

(** The nearest integer, ties to even. *)
Definition roundEven (q : Q) : Z :=
  let f := Qfloor q in
  match Qcompare (q - inject_Z f) (1 # 2) with
  | Lt => f
  | Gt => (f + 1)%Z
  | Eq => if Z.even f then f else (f + 1)%Z
  end.

(** Rounding of a positive rational to 53 significant bits, with the
    gradual underflow of binary64 below [2^-1022]. *)
Definition roundPos (a : Q) : Q :=
  let e := Z.max (ilog2 a - 52) (-1074) in
  inject_Z (roundEven (a / pow2 e)) * pow2 e.

Definition fl (q : Q) : Number :=
  match Qnum q with
  | Z0 => 0
  | Zpos _ => roundPos q
  | Zneg _ => - roundPos (- q)
  end.

Definition subtract (a b : Number) : Number := fl (a - b).
Definition multiply (a b : Number) : Number := fl (a * b).
Definition divide (a b : Number) : Number := fl (a / b).

Definition Math_abs (a : Number) : Number := Qabs a.

(** [Math.round]: the closest integer, the larger one on a tie. *)
Definition Math_round (a : Number) : Z := Qfloor (a + (1 # 2)).

End JSNumber.
Export JSNumber.

(* ================================================================== *)
(** ** Exceptions and arrays *)
(* ================================================================== *)

(** A computation that may throw ([new RegExp] raises a SyntaxError on a
    malformed pattern) returns an [option]; [None] is the uncaught
    exception. *)
Definition ret {A} (a : A) : option A := Some a.

Definition bind {A B} (m : option A) (k : A -> option B) : option B :=
  match m with
  | Some a => k a
  | None => None
  end.

Notation "x <- m ;; k" := (bind m (fun x => k))
  (at level 61, m at next level, right associativity).

Section Arrays.
Variables A B : Type.

(** [xs.filter(f)] *)
Fixpoint filterM (f : A -> option bool) (xs : list A) : option (list A) :=
  match xs with
  | [] => ret []
  | x :: xs' =>
      b <- f x ;;
      rest <- filterM f xs' ;;
      ret (if b then x :: rest else rest)
  end.

(** [xs.reduce(f, acc)] *)
Fixpoint reduceM (f : B -> A -> option B) (xs : list A) (acc : B) : option B :=
  match xs with
  | [] => ret acc
  | x :: xs' => acc' <- f acc x ;; reduceM f xs' acc'
  end.

(** [xs.every(f)], which stops at the first element that fails. *)
Fixpoint everyM (f : A -> option bool) (xs : list A) : option bool :=
  match xs with
  | [] => ret true
  | x :: xs' => b <- f x ;; if b then everyM f xs' else ret false
  end.

(** [xs.map(f)] *)
Fixpoint mapM (f : A -> option B) (xs : list A) : option (list B) :=
  match xs with
  | [] => ret []
  | x :: xs' => y <- f x ;; ys <- mapM f xs' ;; ret (y :: ys)
  end.

(** [xs.map((x, i) => f(x, i))], the index counted from [i]. *)
Fixpoint mapi (f : A -> nat -> B) (i : nat) (xs : list A) : list B :=
  match xs with
  | [] => []
  | x :: xs' => f x i :: mapi f (S i) xs'
  end.
End Arrays.

(* ================================================================== *)
(** ** The data of the toolkit *)
(* ================================================================== *)

Record Example := { input : jsstring; output : jsstring }.

(** [mustInclude] may be missing from a test case. *)
Record TestCase := { mustInclude : option (list jsstring) }.

Record Evaluation := {
  clarity : Z;
  specificity : Z;
  keywordCoverage : Z;
  testScore : Z;
  overall : Z;
  foundKeywords : list jsstring
}.

(** The objects pushed on [variations], and the scored objects
    [{ ...v, evaluation }] built from them. *)
Record Variation := { id : jsstring; type : jsstring; prompt : jsstring }.

Record Variant := { variation :> Variation; evaluation : Evaluation }.

(** What a handler hands to [res]. *)
Inductive Response :=
| ErrorJson (status : nat) (error : jsstring)
| VariationsJson (basePrompt : jsstring) (variations : list Variant)
| EvaluationJson (prompt : jsstring) (evaluation : Evaluation).

(** The bodies of the two requests; every property may be absent. *)
Module GenerateVariations.
Record body := {
  basePrompt : option jsstring;
  keywords : option (list jsstring);
  examples : option (list Example);
  constraints : option (list jsstring)
}.
End GenerateVariations.

Module Evaluate.
Record body := {
  prompt : option jsstring;
  keywords : option (list jsstring);
  testCases : option (list TestCase)
}.
End Evaluate.

(** The default [= []] of a destructured property. *)
Definition orEmpty {A} (v : option (list A)) : list A :=
  match v with
  | Some xs => xs
  | None => []
  end.

(** The regular expression literals of the source. *)
Definition flags_g : Flags := {| global := true; ignoreCase := false |}.
Definition flags_i : Flags := {| global := false; ignoreCase := true |}.
Definition flags_ig : Flags := {| global := true; ignoreCase := true |}.

(** [\b] word [\b] *)
Definition wordTerms (w : jsstring) : list term :=
  WordBoundary :: map Char w ++ [WordBoundary].

(** [/\bplease\b/ig], [/\bCreate\b/ig] and [/\bDescribe\b/ig] *)
Definition re_please : RegExp := {| source := wordTerms (str "please"); flags := flags_ig |}.
Definition re_Create : RegExp := {| source := wordTerms (str "Create"); flags := flags_ig |}.
Definition re_Describe : RegExp := {| source := wordTerms (str "Describe"); flags := flags_ig |}.

(** [/[.*+?^${}()|[\]\\]/g] *)
Definition re_special : RegExp :=
  {| source := [Class false (str ".*+?^${}()|[]\")]; flags := flags_g |}.

(* ================================================================== *)
(** ** The functions of [server.js] *)
(* ================================================================== *)

Section Toolkit.
Context {UC : UnicodeCase}.

(** *** Prompt variation utilities *)

Definition addSystemRole (prompt role : jsstring) : jsstring :=
  str "System: " ++ role ++ [LF] ++ str "User: " ++ prompt.

Definition addFewShot (prompt : jsstring) (examples : option (list Example)) : jsstring :=
  match examples with
  | None => prompt
  | Some exs =>
      if (List.length exs =? 0)%nat then prompt
      else
        let fewShot :=
          join [LF; LF]
               (mapi (fun ex i =>
                        str "Example " ++ decimal (i + 1) ++ str ":" ++ [LF]
                        ++ str "Input: " ++ input ex ++ [LF]
                        ++ str "Output: " ++ output ex) 0 exs) in
        fewShot ++ [LF; LF] ++ str "Now, given the user input, respond concisely."
                ++ [LF] ++ str "User: " ++ prompt
  end.

Definition tightenInstructions (prompt : jsstring) (constraints : option (list jsstring))
  : jsstring :=
  let c :=
    match constraints with
    | Some cs => if (List.length cs =? 0)%nat then [] else join (str "; ") cs ++ str "; "
    | None => []
    end in
  str "Instruction: " ++ c ++ str "Be concise and precise." ++ [LF] ++ str "User: " ++ prompt.

Definition paraphrasePrompt (prompt : jsstring) : jsstring :=
  let p := prompt in
  let p := trim (replace re_please [] p) in
  let p := replace re_Create (str "Generate") p in
  let p := replace re_Describe (str "Summarize") p in
  let p := if (120 <? List.length p)%nat then slice0 110 p ++ str "..." else p in
  p.

Definition injectKeywords (prompt : jsstring) (keywords : option (list jsstring)) : jsstring :=
  match keywords with
  | None => prompt
  | Some ks =>
      if (List.length ks =? 0)%nat then prompt
      else
        let kwLine := str "Keywords to include: " ++ join (str ", ") ks ++ str "." in
        prompt ++ [LF; LF] ++ kwLine
  end.

(** *** Heuristic evaluation *)

Definition escapeRegExp (string : jsstring) : jsstring :=
  replace re_special (str "\$&") string.

Definition specificityWords : list jsstring :=
  map str ["exact"; "concise"; "step-by-step"; "numbered"; "limit"; "only";
           "format"; "json"]%string.

(** [Math.round((part / whole) * 100)] *)
Definition percentage (part whole : nat) : Z :=
  Math_round (multiply (divide (inject_Z (Z.of_nat part)) (inject_Z (Z.of_nat whole))) 100%Q).

Definition evaluatePrompt (prompt : jsstring) (keywords : list jsstring)
           (testCases : list TestCase) : option Evaluation :=
  let length_ := inject_Z (Z.of_nat (List.length prompt)) in
  let clarity :=
    Z.max 10 (Z.min 100
      (Math_round (subtract 100%Q (multiply (Math_abs (subtract 120%Q length_)) (1 # 2)%Q)))) in
  specificityCount <-
    reduceM (fun acc w =>
               re <- RegExp_new (str "\b" ++ w ++ str "\b") (str "i") ;;
               ret (acc + (if test re prompt then 1 else 0))%Z)
            specificityWords 0%Z ;;
  let specificity := Z.min 100 (specificityCount * 25 + 20) in
  foundKeywords <-
    filterM (fun k =>
               re <- RegExp_new (str "\b" ++ escapeRegExp k ++ str "\b") (str "i") ;;
               ret (test re prompt))
            keywords ;;
  let keywordCoverage :=
    if (List.length keywords =? 0)%nat then 0%Z
    else percentage (List.length foundKeywords) (List.length keywords) in
  testScore <-
    (if (List.length testCases =? 0)%nat then ret 0%Z
     else
       pass <-
         reduceM (fun acc t =>
                    let required := orEmpty (mustInclude t) in
                    ok <- everyM (fun r =>
                                    re <- RegExp_new (str "\b" ++ escapeRegExp r ++ str "\b")
                                                     (str "i") ;;
                                    ret (test re prompt))
                                 required ;;
                    ret (acc + (if ok then 1 else 0))%nat)
                 testCases 0%nat ;;
       ret (percentage pass (List.length testCases))) ;;
  let overall :=
    Math_round (divide (inject_Z (clarity + specificity + keywordCoverage + testScore)) 4%Q) in
  ret {| clarity := clarity; specificity := specificity;
         keywordCoverage := keywordCoverage; testScore := testScore;
         overall := overall; foundKeywords := foundKeywords |}.

(** *** API endpoints *)

(** [uuidv4 n] is the identifier that the [n]-th call of [uuidv4()] in the
    life of the process returns.  A handler is run with the number of
    calls made so far and returns the new count with its response. *)
Variable uuidv4 : nat -> jsstring.

Definition Handler (A : Type) : Type := nat -> option (A * nat).

Definition hret {A} (a : A) : Handler A := fun n => Some (a, n).

Definition hbind {A B} (m : Handler A) (k : A -> Handler B) : Handler B :=
  fun n => match m n with
           | Some (a, n') => k a n'
           | None => None
           end.

Definition fresh : Handler jsstring := fun n => Some (uuidv4 n, S n).

Definition lift {A} (m : option A) : Handler A :=
  fun n => match m with
           | Some a => Some (a, n)
           | None => None
           end.

(** [!v] on a property that is a string when present. *)
Definition missing (v : option jsstring) : bool :=
  match v with
  | None => true
  | Some s => (List.length s =? 0)%nat
  end.

Definition text (v : option jsstring) : jsstring :=
  match v with
  | Some s => s
  | None => []
  end.

Local Notation "x <~ m ;; k" := (hbind m (fun x => k))
  (at level 61, m at next level, right associativity).

(** [app.post('/api/generate-variations', ...)] *)
Definition generateVariations (req : GenerateVariations.body) : Handler Response :=
  let basePrompt := GenerateVariations.basePrompt req in
  let keywords := orEmpty (GenerateVariations.keywords req) in
  let examples := orEmpty (GenerateVariations.examples req) in
  let constraints := orEmpty (GenerateVariations.constraints req) in
  if missing basePrompt then hret (ErrorJson 400 (str "basePrompt required"))
  else
    let basePrompt := text basePrompt in
    let variations := [] in
    i <~ fresh ;;
    let variations := variations ++ [
      {| id := i; type := str "system-role:expert";
         prompt := addSystemRole basePrompt
                     (str "You are an expert assistant with deep domain knowledge.") |}] in
    i <~ fresh ;;
    let variations := variations ++ [
      {| id := i; type := str "few-shot";
         prompt := addFewShot basePrompt (Some examples) |}] in
    i <~ fresh ;;
    let variations := variations ++ [
      {| id := i; type := str "tight-constraints";
         prompt := tightenInstructions basePrompt (Some constraints) |}] in
    i <~ fresh ;;
    let variations := variations ++ [
      {| id := i; type := str "paraphrase";
         prompt := paraphrasePrompt basePrompt |}] in
    i <~ fresh ;;
    let variations := variations ++ [
      {| id := i; type := str "keyword-injection";
         prompt := injectKeywords basePrompt (Some keywords) |}] in
    scored <~ lift (mapM (fun v : Variation =>
                            evalRes <- evaluatePrompt (prompt v) keywords [] ;;
                            ret {| variation := v; evaluation := evalRes |})
                         variations) ;;
    hret (VariationsJson basePrompt scored).

(** [app.post('/api/evaluate', ...)] *)
Definition evaluate (req : Evaluate.body) : Handler Response :=
  let prompt := Evaluate.prompt req in
  let keywords := orEmpty (Evaluate.keywords req) in
  let testCases := orEmpty (Evaluate.testCases req) in
  if missing prompt then hret (ErrorJson 400 (str "prompt required"))
  else
    let prompt := text prompt in
    evalRes <~ lift (evaluatePrompt prompt keywords testCases) ;;
    hret (EvaluationJson prompt evalRes).

End Toolkit.

(** A host whose case table maps every code unit to itself; on ASCII input
    the table is never consulted. *)
Definition plainCase : UnicodeCase := {| unicodeUpper := fun c => c |}.

(* ================================================================== *)
(** ** The other endpoints of [server.js] *)
(* ================================================================== *)

(** A value that [JSON.parse] returns.  A number is a binary64 value, which
    may be an infinity; the properties of an object are kept in the order of
    their keys, and a key occurs once. *)
#[warnings="-register-all"]
Inductive json :=
| JNull
| JBool (b : bool)
| JNum (n : spec_float)
| JStr (s : jsstring)
| JArr (items : list json)
| JObj (fields : list (jsstring * json)).

(** What the handlers take from the host: the JSON functions, the rendering
    of a Number and [path.join].  [JSON_parse] returns the value or the
    message of the SyntaxError; [JSON_stringify true] is
    [JSON.stringify(v, null, 2)]. *)
Class Host := {
  JSON_parse : jsstring -> json + jsstring;
  JSON_stringify : bool -> json -> jsstring;
  Number_toString : spec_float -> jsstring;
  path_join : jsstring -> jsstring -> jsstring
}.

Fixpoint sameString (a b : jsstring) : bool :=
  match a, b with
  | [], [] => true
  | x :: a', y :: b' => (x =? y)%N && sameString a' b'
  | _, _ => false
  end.

Fixpoint lookup (key : jsstring) (fields : list (jsstring * json)) : option json :=
  match fields with
  | [] => None
  | (k, v) :: rest => if sameString k key then Some v else lookup key rest
  end.

(** A value of the program is a JSON value or [undefined] ([None]). *)
Definition truthy (v : option json) : bool :=
  match v with
  | None | Some JNull => false
  | Some (JBool b) => b
  | Some (JNum (S754_zero _)) | Some (JNum S754_nan) => false
  | Some (JNum _) => true
  | Some (JStr s) => negb (List.length s =? 0)%nat
  | Some (JArr _) | Some (JObj _) => true
  end.

Definition isArray (v : option json) : bool :=
  match v with
  | Some (JArr _) => true
  | _ => false
  end.

(** [v.key] for one of the keys the program reads, none of which is a
    property of a string, a number, a boolean or an array: the access throws
    on [undefined] and [null] and gives [undefined] on everything that is
    not an object with the key. *)
Definition getProp (v : option json) (key : jsstring) : option (option json) :=
  match v with
  | None | Some JNull => None
  | Some (JObj fields) => Some (lookup key fields)
  | Some _ => Some None
  end.

(** [v.map], which is a function on arrays only. *)
Definition asArray (v : option json) : option (list json) :=
  match v with
  | Some (JArr items) => Some items
  | _ => None
  end.

(** [v[0]] on an array *)
Definition first (v : option json) : option json :=
  match v with
  | Some (JArr items) => hd_error items
  | _ => None
  end.

Section Endpoints.
Context {H : Host}.

(** ToString of a value, [None] when it throws.  An array is joined with
    commas, [null] giving the empty string there.  An object gives
    [[object Object]] through [Object.prototype.toString]; when it has a
    property [toString] of its own, which is no function, neither that nor
    [valueOf] gives a primitive and the conversion throws. *)
Fixpoint ToString (v : json) : option jsstring :=
  match v with
  | JNull => ret (str "null")
  | JBool b => ret (if b then str "true" else str "false")
  | JNum n => ret (Number_toString n)
  | JStr s => ret s
  | JArr items =>
      (fix elements (xs : list json) : option jsstring :=
         match xs with
         | [] => ret []
         | x :: rest =>
             e <- match x with
                  | JNull => ret []
                  | _ => ToString x
                  end ;;
             match rest with
             | [] => ret e
             | _ :: _ => r <- elements rest ;; ret (e ++ str "," ++ r)
             end
         end) items
  | JObj fields =>
      match lookup (str "toString") fields with
      | Some _ => None
      | None => ret (str "[object Object]")
      end
  end.

(** [xs.join(sep)] on values: [undefined] and [null] give the empty
    string. *)
Definition joinValues (sep : jsstring) (xs : list (option json)) : option jsstring :=
  texts <- mapM (fun x => match x with
                          | None | Some JNull => ret []
                          | Some v => ToString v
                          end) xs ;;
  ret (join sep texts).

(** [(c.parts || []).map(p => p.text || '').join('')] *)
Definition partsText (c : json) : option jsstring :=
  parts <- getProp (Some c) (str "parts") ;;
  let parts := if truthy parts then parts else Some (JArr []) in
  items <- asArray parts ;;
  texts <- mapM (fun p =>
                   t <- getProp (Some p) (str "text") ;;
                   ret (if truthy t then t else Some (JStr [])))
                items ;;
  joinValues [] texts.

(** [content.map(c => ...).join('\n\n')] *)
Definition contentText (content : option json) : option jsstring :=
  items <- asArray content ;;
  blocks <- mapM partsText items ;;
  ret (join [LF; LF] blocks).

(** [json.key && Array.isArray(json.key) && json.key[0] && json.key[0].content]:
    the content when the test holds, [None] inside when it does not. *)
Definition shapeContent (v : json) (key : jsstring) : option (option json) :=
  c <- getProp (Some v) key ;;
  if truthy c && isArray c then
    if truthy (first c) then
      content <- getProp (first c) (str "content") ;;
      ret (if truthy content then content else None)
    else ret None
  else ret None.

(** The body of the inner [try]; [None] is the exception it may throw. *)
Definition tryExtract (v : json) : option jsstring :=
  c <- shapeContent v (str "candidates") ;;
  match c with
  | Some content => contentText (Some content)
  | None =>
      o <- shapeContent v (str "output") ;;
      match o with
      | Some content => contentText (Some content)
      | None => ret (JSON_stringify true v)
      end
  end.

Definition extractText (v : json) : jsstring :=
  match tryExtract v with
  | Some t => t
  | None => JSON_stringify true v
  end.

End Endpoints.

(** A request handed to [fetch], and what comes of it: a response arrives
    with its status and its body, or the promise of the response or of its
    body is rejected with an error. *)
Record Request := {
  url : jsstring;
  method : jsstring;
  headers : list (jsstring * jsstring);
  body : option jsstring
}.

Inductive Fetched :=
| Rejected (message : jsstring)
| Responded (status : nat) (text : jsstring).

(** [resp.ok] *)
Definition ok (status : nat) : bool := (200 <=? status)%nat && (status <=? 299)%nat.

(** What a handler hands to [res]: the status and the object. *)
Record Reply := { replyStatus : nat; replyBody : json }.

Definition number (n : nat) : json := JNum (binary_normalize 53 1024 (Z.of_nat n) 0 false).

Module Gemini.
Record body := { prompt : option jsstring; model : option jsstring }.
End Gemini.

Module ExportPack.
Record body := {
  projectName : option jsstring;
  basePrompt : option json;
  variations : option json;
  metadata : option json
}.
End ExportPack.

(** A call of the [fs] module. *)
Inductive FsCall :=
| existsSync (path : jsstring)
| mkdirSync (path : jsstring)
| writeFileSync (path : jsstring) (data : jsstring).

(** [s.replace(/c+/g, by_)] for a class [c] of code units and a replacement
    without [$]: every maximal run of code units of the class becomes one
    [by_]. *)
Fixpoint replaceRuns (c : codeUnit -> bool) (by_ : jsstring) (inRun : bool) (s : jsstring)
  : jsstring :=
  match s with
  | [] => []
  | x :: s' =>
      if c x then (if inRun then [] else by_) ++ replaceRuns c by_ true s'
      else x :: replaceRuns c by_ false s'
  end.

Section Handlers.
Context {H : Host}.

(** [app.get('/api/list-models', ...)]: the requests made and the reply.
    [apiKey] is [process.env.GEMINI_API_KEY]. *)
Definition listModels (apiKey : option jsstring) (fetch : Request -> Fetched)
  : list Request * Reply :=
  if missing apiKey
  then ([], {| replyStatus := 400;
               replyBody := JObj [(str "error",
                 JStr (str "GEMINI_API_KEY environment variable not set"))] |})
  else
    let url := str "https://generativelanguage.googleapis.com/v1beta/models" in
    let request := {| url := url; method := str "GET";
                      headers := [(str "x-goog-api-key", text apiKey)];
                      body := None |} in
    ([request],
     match fetch request with
     | Responded status text =>
         if negb (ok status)
         then {| replyStatus := status;
                 replyBody := JObj [(str "ok", JBool false); (str "status", number status);
                                    (str "body", JStr text)] |}
         else
           match JSON_parse text with
           | inl json =>
               {| replyStatus := 200;
                  replyBody := JObj [(str "ok", JBool true); (str "raw", json)] |}
           | inr message =>
               {| replyStatus := 500;
                  replyBody := JObj [(str "ok", JBool false); (str "error", JStr message)] |}
           end
     | Rejected message =>
         {| replyStatus := 500;
            replyBody := JObj [(str "ok", JBool false); (str "error", JStr message)] |}
     end).

(** [app.post('/api/gemini', ...)] *)
Definition gemini (apiKey : option jsstring) (fetch : Request -> Fetched)
           (req : Gemini.body) : list Request * Reply :=
  let prompt := Gemini.prompt req in
  let model := match Gemini.model req with
               | Some m => m
               | None => str "gemini-2.5-flash-lite"
               end in
  if missing prompt
  then ([], {| replyStatus := 400;
               replyBody := JObj [(str "error", JStr (str "prompt required"))] |})
  else if missing apiKey
  then ([], {| replyStatus := 400;
               replyBody := JObj [(str "error",
                 JStr (str "GEMINI_API_KEY environment variable not set"))] |})
  else
    let url := str "https://generativelanguage.googleapis.com/v1beta/models/" ++ model
               ++ str ":generateContent" in
    let body :=
      JObj [(str "contents",
             JArr [JObj [(str "parts", JArr [JObj [(str "text", JStr (text prompt))]])]])] in
    let request := {| url := url; method := str "POST";
                      headers := [(str "Content-Type", str "application/json");
                                  (str "x-goog-api-key", text apiKey)];
                      body := Some (JSON_stringify false body) |} in
    ([request],
     match fetch request with
     | Responded status txt =>
         if negb (ok status) then
           if (status =? 404)%nat
           then {| replyStatus := 404;
                   replyBody := JObj [(str "ok", JBool false); (str "status", number 404);
                                      (str "body", JStr txt);
                                      (str "hint", JStr (str
  "Model not found. Call GET /api/list-models to see available models and exact model IDs."))] |}
           else {| replyStatus := status;
                   replyBody := JObj [(str "ok", JBool false); (str "status", number status);
                                      (str "body", JStr txt)] |}
         else
           match JSON_parse txt with
           | inl json =>
               {| replyStatus := 200;
                  replyBody := JObj [(str "ok", JBool true); (str "model", JStr model);
                                     (str "extracted", JStr (extractText json));
                                     (str "raw", json)] |}
           | inr message =>
               {| replyStatus := 500;
                  replyBody := JObj [(str "ok", JBool false); (str "error", JStr message)] |}
           end
     | Rejected message =>
         {| replyStatus := 500;
            replyBody := JObj [(str "ok", JBool false); (str "error", JStr message)] |}
     end).

(** The name of the exported file:
    [`${projectName.replace(/\s+/g,'_')}_${Date.now()}.json`] *)
Definition exportFileName (projectName : jsstring) (now : nat) : jsstring :=
  replaceRuns isWhiteSpace (str "_") false projectName ++ str "_" ++ decimal now
  ++ str ".json".

(** [app.post('/api/export', ...)]: the calls of [fs] made and the reply,
    [None] when the handler throws, which it does when [fs.mkdirSync] or
    [fs.writeFileSync] throws.  [dirname] is [__dirname], [isoNow] what
    [new Date().toISOString()] returns, [now] what [Date.now()] returns,
    [present] what [fs.existsSync] answers, and [returns] tells of a call of
    [fs.mkdirSync] or [fs.writeFileSync] whether it returns; the project
    name is a string when it is there.  A property that is [undefined] is
    left out of the payload, as [JSON.stringify] leaves it out. *)
Definition exportPack (dirname isoNow : jsstring) (now : nat)
           (present : jsstring -> bool) (returns : FsCall -> bool)
           (req : ExportPack.body) : list FsCall * option Reply :=
  let projectName := match ExportPack.projectName req with
                     | Some n => n
                     | None => str "prompt-pack"
                     end in
  let variations := match ExportPack.variations req with
                    | Some v => v
                    | None => JArr []
                    end in
  let metadata := match ExportPack.metadata req with
                  | Some m => m
                  | None => JObj []
                  end in
  let payload :=
    JObj ([(str "metadata", metadata)]
          ++ match ExportPack.basePrompt req with
             | Some b => [(str "basePrompt", b)]
             | None => []
             end
          ++ [(str "variations", variations); (str "exportedAt", JStr isoNow)]) in
  let fname := exportFileName projectName now in
  let outPath := path_join dirname (str "exports") in
  let make := mkdirSync outPath in
  let write := writeFileSync (path_join outPath fname) (JSON_stringify true payload) in
  let reply := {| replyStatus := 200;
                  replyBody := JObj [(str "ok", JBool true);
                                     (str "file", JStr (str "/exports/" ++ fname))] |} in
  if present outPath
  then ([existsSync outPath; write], if returns write then Some reply else None)
  else if returns make
  then ([existsSync outPath; make; write], if returns write then Some reply else None)
  else ([existsSync outPath; make], None).

End Handlers.

(** A host for the examples: it parses nothing and prints nothing. *)
Definition silentHost : Host :=
  {| JSON_parse := fun _ => inr [];
     JSON_stringify := fun _ _ => [];
     Number_toString := fun _ => [];
     path_join := fun a b => a ++ str "/" ++ b |}.

(* ================================================================== *)
(** ** The specification's reading of the operations *)
(* ================================================================== *)

(** The Escaper on one code unit: a backslash goes before each syntax
    character, every other code unit is kept as it is. *)
Definition escapeUnit (c : codeUnit) : jsstring :=
  if isSyntaxCharacter c then [cu "\"; c] else [c].

(** A term begins and ends with a word character. *)
Definition wordEnds (w : jsstring) : bool :=
  isWordCharAt (hd_error w) && isWordCharAt (hd_error (rev w)).

(** Every code unit of [w] is a word character. *)
Definition allWord (w : jsstring) : bool := forallb isWordChar w.

(** The code unit just before an occurrence that comes after [before], when
    [prev] is the one before [before]. *)
Fixpoint lastOr (prev : option codeUnit) (before : jsstring) : option codeUnit :=
  match before with
  | [] => prev
  | x :: before' => lastOr (Some x) before'
  end.

(** "Trims surrounding whitespace": [t] is what is left of [s] when the
    white space at its two ends is taken away, so [t] neither begins nor
    ends with white space. *)
Definition trimmedOf (s t : jsstring) : Prop :=
  (exists before after,
      s = before ++ t ++ after
      /\ forallb isWhiteSpace before = true /\ forallb isWhiteSpace after = true)
  /\ (forall c, hd_error t = Some c -> isWhiteSpace c = false)
  /\ (forall c, lastOr None t = Some c -> isWhiteSpace c = false).

Section Specification.
Context {UC : UnicodeCase}.

(** Two strings that differ at most in letter case (and in nothing at all
    without the [i] flag). *)
Definition sameUpToCase (ic : bool) (w occ : jsstring) : Prop :=
  map (Canonicalize ic) w = map (Canonicalize ic) occ.

(** The input reads [w] from its first code unit on, letter case aside when
    [ic] is set. *)
Fixpoint startsWith (ic : bool) (w rest : jsstring) : bool :=
  match w, rest with
  | [], _ => true
  | c :: w', x :: rest' => charMatches ic c x && startsWith ic w' rest'
  | _ :: _, [] => false
  end.

(** A whole-word occurrence of [w] starts here: the input reads [w] in any
    letter case, and the code units before and after it, where there are
    any, are not word characters. *)
Definition standaloneAt (w : jsstring) (prev : option codeUnit) (rest : jsstring) : bool :=
  negb (isWordCharAt prev)
  && startsWith true w rest
  && negb (isWordCharAt (hd_error (skipn (List.length w) rest))).

Fixpoint occursFrom (w : jsstring) (prev : option codeUnit) (rest : jsstring) : bool :=
  standaloneAt w prev rest
  || match rest with
     | x :: rest' => occursFrom w (Some x) rest'
     | [] => false
     end.

(** [w] has a whole-word occurrence somewhere in [prompt]. *)
Definition occursWholeWord (w prompt : jsstring) : bool := occursFrom w None prompt.

(** From left to right, every whole-word occurrence of [w] is replaced by
    [by_] and passed over; every other code unit is copied. *)
Fixpoint replaceWordFrom (w by_ : jsstring) (prev : option codeUnit) (rest : jsstring)
         (skip : nat) {struct rest} : jsstring :=
  match skip, rest with
  | S k, x :: rest' => replaceWordFrom w by_ (Some x) rest' k
  | S _, [] => []
  | O, x :: rest' =>
      if standaloneAt w prev rest
      then by_ ++ replaceWordFrom w by_ (Some x) rest' (List.length w - 1)
      else x :: replaceWordFrom w by_ (Some x) rest' 0
  | O, [] => []
  end.

Definition replaceWord (w by_ prompt : jsstring) : jsstring :=
  replaceWordFrom w by_ None prompt 0.

(** The Paraphrase transformer as section 4.2 words it. *)
Definition Paraphrase (prompt : jsstring) : jsstring :=
  let removed := replaceWord (str "please") [] prompt in
  let trimmed := trim removed in
  let generated := replaceWord (str "Create") (str "Generate") trimmed in
  let summarized := replaceWord (str "Describe") (str "Summarize") generated in
  if (120 <? List.length summarized)%nat
  then firstn 110 summarized ++ str "..."
  else summarized.

End Specification.

(* ================================================================== *)
(** ** Auxiliary definitions *)
(* ================================================================== *)

Definition isSome {A} (v : option A) : bool :=
  match v with
  | Some _ => true
  | None => false
  end.

(** The regular expression a keyword or a vocabulary word is turned into. *)
Definition wordRegExp (w : jsstring) : RegExp :=
  {| source := wordTerms w; flags := flags_i |}.

Definition matchesWord {UC : UnicodeCase} (w prompt : jsstring) : bool :=
  test (wordRegExp w) prompt.

(** No code unit of [w] is a syntax character. *)
Definition plain (w : jsstring) : bool :=
  forallb (fun c => negb (isSyntaxCharacter c)) w.

(** The code unit before the position reached after [n] code units of
    [rest], when [prev] is the one before [rest]. *)
Fixpoint lastSeen (prev : option codeUnit) (n : nat) (rest : jsstring) : option codeUnit :=
  match n, rest with
  | S k, x :: rest' => lastSeen (Some x) k rest'
  | _, _ => prev
  end.

(** The scores without the exceptions: what [evaluatePrompt] returns once
    every pattern it builds is known to parse. *)
Section Scores.
Context {UC : UnicodeCase}.

Definition clarityOf (prompt : jsstring) : Z :=
  Z.max 10 (Z.min 100
    (Math_round (subtract 100%Q
       (multiply (Math_abs (subtract 120%Q (inject_Z (Z.of_nat (List.length prompt)))))
                 (1 # 2)%Q)))).

Definition countWords (prompt : jsstring) (ws : list jsstring) : Z :=
  fold_left (fun acc w => (acc + (if matchesWord w prompt then 1 else 0))%Z) ws 0%Z.

Definition passes (prompt : jsstring) (t : TestCase) : bool :=
  forallb (fun r => matchesWord r prompt) (orEmpty (mustInclude t)).

Definition countPasses (prompt : jsstring) (ts : list TestCase) : nat :=
  fold_left (fun acc t => (acc + (if passes prompt t then 1 else 0))%nat) ts 0%nat.

Definition scores (prompt : jsstring) (keywords : list jsstring) (testCases : list TestCase)
  : Evaluation :=
  let clarity := clarityOf prompt in
  let specificity := Z.min 100 (countWords prompt specificityWords * 25 + 20) in
  let foundKeywords := filter (fun k => matchesWord k prompt) keywords in
  let keywordCoverage :=
    if (List.length keywords =? 0)%nat then 0%Z
    else percentage (List.length foundKeywords) (List.length keywords) in
  let testScore :=
    if (List.length testCases =? 0)%nat then 0%Z
    else percentage (countPasses prompt testCases) (List.length testCases) in
  {| clarity := clarity; specificity := specificity;
     keywordCoverage := keywordCoverage; testScore := testScore;
     overall := Math_round (divide (inject_Z (clarity + specificity + keywordCoverage
                                              + testScore)) 4%Q);
     foundKeywords := foundKeywords |}.

End Scores.

(** The same percentage computed with the binary64 operations of the
    Standard Library's [SpecFloat], to check [fl] against. *)
Definition ofSpecFloat (x : spec_float) : Q :=
  match x with
  | S754_finite s m e =>
      ((if s then - (1) else 1) * inject_Z (Zpos m) * pow2 e)%Q
  | _ => 0%Q
  end.

Definition toSpecFloat (z : Z) : spec_float := binary_normalize 53 1024 z 0 false.

Definition percentageSpecFloat (part whole : nat) : Z :=
  Math_round
    (ofSpecFloat
       (SFmul 53 1024
              (SFdiv 53 1024 (toSpecFloat (Z.of_nat part)) (toSpecFloat (Z.of_nat whole)))
              (toSpecFloat 100))).

(** All pairs [(part, whole)] with [part <= whole] and [1 <= whole <= n]. *)
Definition fractions (n : nat) : list (nat * nat) :=
  flat_map (fun whole => map (fun part => (part, whole)) (seq 0 (S whole))) (seq 1 n).

(** Terms that are a literal code unit or a word boundary, as in the
    patterns [evaluatePrompt] builds. *)
Definition literalTerms (ts : list term) : bool :=
  forallb (fun t => match t with
                    | Char _ | WordBoundary => true
                    | _ => false
                    end) ts.

(** The number of syntax characters of a string. *)
Definition syntaxCount (s : jsstring) : nat :=
  List.length (filter isSyntaxCharacter s).

(** The cut at the end of [paraphrasePrompt]. *)
Definition cut (p : jsstring) : jsstring :=
  if (120 <? List.length p)%nat then firstn 110 p ++ str "..." else p.

(** [v] is [p] between a text that does not end with a word character and
    a text that does not begin with one. *)
Definition frames (v p : jsstring) : Prop :=
  exists prefix suffix,
    v = prefix ++ p ++ suffix
    /\ isWordCharAt (lastOr None prefix) = false
    /\ isWordCharAt (hd_error suffix) = false.

(** The part [{ text: t }] and the block [{ parts: [...] }] of an answer
    whose parts are texts. *)
Definition textPart (t : jsstring) : json := JObj [(str "text", JStr t)].

Definition partsBlock (texts : list jsstring) : json :=
  JObj [(str "parts", JArr (map textPart texts))].

(** The property of the object of a reply. *)
Definition replyField (key : string) (r : Reply) : option json :=
  match replyBody r with
  | JObj fields => lookup (str key) fields
  | _ => None
  end.

(** Case analysis on membership in a list that is written out. *)
Ltac each_member H := repeat (destruct H as [<- | H]); try contradiction.

(* ================================================================== *)
(** ** Lists, options and code units *)
(* ================================================================== *)

Unset Implicit Arguments.

Lemma filterM_pure {A} (f : A -> option bool) (g : A -> bool) (xs : list A) :
  (forall x, In x xs -> f x = Some (g x)) -> filterM f xs = Some (filter g xs).
Proof.
  induction xs as [|x xs IH]; intros H; simpl; [reflexivity|].
  rewrite (H x (or_introl eq_refl)). simpl.
  rewrite IH by (intros y Hy; apply H; right; exact Hy). simpl.
  destruct (g x); reflexivity.
Qed.

Lemma everyM_pure {A} (f : A -> option bool) (g : A -> bool) (xs : list A) :
  (forall x, In x xs -> f x = Some (g x)) -> everyM f xs = Some (forallb g xs).
Proof.
  induction xs as [|x xs IH]; intros H; simpl; [reflexivity|].
  rewrite (H x (or_introl eq_refl)). simpl.
  destruct (g x); simpl; [|reflexivity].
  apply IH. intros y Hy. apply H. right. exact Hy.
Qed.

Lemma reduceM_pure {A B} (f : B -> A -> option B) (g : B -> A -> B) (xs : list A) :
  (forall acc x, In x xs -> f acc x = Some (g acc x)) ->
  forall acc, reduceM f xs acc = Some (fold_left g xs acc).
Proof.
  induction xs as [|x xs IH]; intros H acc; simpl; [reflexivity|].
  rewrite (H acc x (or_introl eq_refl)). simpl.
  apply IH. intros a y Hy. apply H. right. exact Hy.
Qed.

Lemma mem_In (c : codeUnit) (cs : list codeUnit) : mem c cs = true <-> In c cs.
Proof.
  unfold mem. rewrite existsb_exists. split.
  - intros (a & Ha & E). apply N.eqb_eq in E. subst. exact Ha.
  - intros H. exists c. split; [exact H | apply N.eqb_refl].
Qed.

Lemma mem_false (c a : codeUnit) (cs : list codeUnit) :
  mem c cs = false -> In a cs -> (c =? a)%N = false.
Proof.
  intros Hm Ha. destruct (N.eqb_spec c a) as [E|]; [|reflexivity].
  subst. apply mem_In in Ha. congruence.
Qed.

(* ================================================================== *)
(** ** The Escaper and the patterns built from it *)
(* ================================================================== *)

Section EscaperFacts.
Context {UC : UnicodeCase}.

Lemma classMatches_special (x : codeUnit) :
  classMatches false false (str ".*+?^${}()|[]\") x = isSyntaxCharacter x.
Proof.
  unfold classMatches, charMatches, Canonicalize, isSyntaxCharacter. simpl negb.
  rewrite xorb_false_l. apply eq_iff_eq_true.
  rewrite mem_In, existsb_exists. split.
  - intros (a & Ha & E). apply N.eqb_eq in E. subst a.
    cbv in Ha |- *. tauto.
  - intros H. exists x. split; [|apply N.eqb_refl].
    cbv in H |- *. tauto.
Qed.

Lemma replaceFrom_special (rest seen : jsstring) :
  replaceFrom re_special (str "\$&") seen rest 0 = flat_map escapeUnit rest.
Proof.
  revert seen. induction rest as [|x rest IH]; intros seen; [reflexivity|].
  cbn [replaceFrom re_special source flags global ignoreCase flags_g matchTerms].
  rewrite classMatches_special. cbn [flat_map]. unfold escapeUnit at 1.
  destruct (isSyntaxCharacter x).
  - cbn. rewrite IH. reflexivity.
  - cbn. rewrite IH. reflexivity.
Qed.

Lemma escapeRegExp_units (s : jsstring) : escapeRegExp s = flat_map escapeUnit s.
Proof. apply replaceFrom_special. Qed.

End EscaperFacts.

Section PatternFacts.
Context {UC : UnicodeCase}.

Lemma parseTerms_escaped (k rest : jsstring) :
  parseTerms None (flat_map escapeUnit k ++ rest)
  = option_map (app (map Char k)) (parseTerms None rest).
Proof.
  induction k as [|c k IH]; simpl flat_map.
  - simpl. destruct (parseTerms None rest); reflexivity.
  - unfold escapeUnit at 1. destruct (isSyntaxCharacter c) eqn:H.
    + apply mem_In in H. cbv in H.
      each_member H;
        cbn; cbn in IH; rewrite IH; destruct (parseTerms None rest); reflexivity.
    + assert (E1 : (c =? cu "\")%N = false) by (apply (mem_false c _ syntaxCharacters H); cbv; tauto).
      assert (E2 : (c =? cu ".")%N = false) by (apply (mem_false c _ syntaxCharacters H); cbv; tauto).
      assert (E3 : (c =? cu "^")%N = false) by (apply (mem_false c _ syntaxCharacters H); cbv; tauto).
      assert (E4 : (c =? cu "$")%N = false) by (apply (mem_false c _ syntaxCharacters H); cbv; tauto).
      assert (E5 : (c =? cu "[")%N = false) by (apply (mem_false c _ syntaxCharacters H); cbv; tauto).
      assert (E6 : mem c (str "*+?(){|") = false).
      { destruct (mem c (str "*+?(){|")) eqn:E; [|reflexivity].
        apply mem_In in E. cbv in E.
        each_member E; discriminate H. }
      cbn [app parseTerms]. rewrite E1, E2, E3, E4, E5, E6, IH.
      destruct (parseTerms None rest); reflexivity.
Qed.

Lemma RegExp_new_escaped (k : jsstring) :
  RegExp_new (str "\b" ++ escapeRegExp k ++ str "\b") (str "i") = Some (wordRegExp k).
Proof.
  rewrite escapeRegExp_units. unfold RegExp_new.
  change (str "\b" ++ flat_map escapeUnit k ++ str "\b")
    with (cu "\" :: cu "b" :: (flat_map escapeUnit k ++ str "\b")).
  cbn [parseTerms]. change ((cu "\" =? cu "\")%N) with true.
  change ((cu "b" =? cu "b")%N) with true. cbv iota.
  rewrite parseTerms_escaped. reflexivity.
Qed.

Lemma escapeUnit_plain (w : jsstring) : plain w = true -> flat_map escapeUnit w = w.
Proof.
  induction w as [|c w IH]; [reflexivity|].
  unfold plain. simpl. rewrite andb_true_iff, negb_true_iff. intros [Hc Hw].
  unfold escapeUnit at 1. rewrite Hc. simpl. f_equal. apply IH, Hw.
Qed.

Lemma RegExp_new_plain (w : jsstring) :
  plain w = true ->
  RegExp_new (str "\b" ++ w ++ str "\b") (str "i") = Some (wordRegExp w).
Proof.
  intros H. rewrite <- (escapeUnit_plain w H) at 1.
  rewrite <- escapeRegExp_units. apply RegExp_new_escaped.
Qed.

End PatternFacts.

(* ================================================================== *)
(** ** [evaluatePrompt] never throws *)
(* ================================================================== *)

Section EvaluatorFacts.
Context {UC : UnicodeCase}.

Lemma specificityWords_plain (w : jsstring) : In w specificityWords -> plain w = true.
Proof.
  unfold specificityWords. simpl map. intros H.
  each_member H; reflexivity.
Qed.

Lemma evaluatePrompt_scores (prompt : jsstring) (keywords : list jsstring)
      (testCases : list TestCase) :
  evaluatePrompt prompt keywords testCases = Some (scores prompt keywords testCases).
Proof.
  unfold evaluatePrompt.
  rewrite (reduceM_pure _
             (fun acc w => (acc + (if matchesWord w prompt then 1 else 0))%Z)) by
    (intros acc w Hw; rewrite (RegExp_new_plain w (specificityWords_plain w Hw)); reflexivity).
  cbn [bind].
  rewrite (filterM_pure _ (fun k => matchesWord k prompt)) by
    (intros k _; rewrite RegExp_new_escaped; reflexivity).
  cbn [bind].
  destruct (List.length testCases =? 0)%nat eqn:Et.
  - cbn [bind ret]. unfold scores. rewrite Et. reflexivity.
  - rewrite (reduceM_pure _
               (fun acc t => (acc + (if passes prompt t then 1 else 0))%nat)).
    + cbn [bind ret]. unfold scores. rewrite Et. reflexivity.
    + intros acc t _.
      rewrite (everyM_pure _ (fun r => matchesWord r prompt)) by
        (intros r _; rewrite RegExp_new_escaped; reflexivity).
      reflexivity.
Qed.

End EvaluatorFacts.

(* ================================================================== *)
(** ** Rounding keeps a value below an integer bound *)
(* ================================================================== *)

Section NumberFacts.
Local Open Scope Q_scope.

Lemma roundEven_range (x : Q) (J : Z) :
  0 <= x -> x <= inject_Z J -> (0 <= roundEven x <= J)%Z.
Proof.
  intros H0 HJ. unfold roundEven.
  assert (F0 : (0 <= Qfloor x)%Z).
  { change 0%Z with (Qfloor 0). apply Qfloor_resp_le. exact H0. }
  assert (FJ : (Qfloor x <= J)%Z).
  { rewrite <- (Qfloor_Z J). apply Qfloor_resp_le. exact HJ. }
  pose proof (Qfloor_le x) as Fx.
  destruct (Z.eq_dec (Qfloor x) J) as [E|NE].
  - assert (L : x - inject_Z (Qfloor x) < 1 # 2) by (rewrite E in *; lra).
    rewrite Qlt_alt in L. rewrite L. lia.
  - destruct (Qcompare (x - inject_Z (Qfloor x)) (1 # 2));
      [destruct (Z.even (Qfloor x))| |]; lia.
Qed.

Lemma pow2_nonpos (e : Z) : (e <= 0)%Z -> pow2 e == / inject_Z (2 ^ (- e)).
Proof.
  intros He. unfold pow2.
  rewrite <- (Z.opp_involutive e) at 1. rewrite Qpower_opp.
  rewrite Zpower_Qpower by lia. reflexivity.
Qed.

Lemma ilog2_le (a : Q) (j : Z) :
  0 < a -> a <= inject_Z (2 ^ j) -> (0 <= j)%Z -> (ilog2 a <= j)%Z.
Proof.
  intros Ha Hj H0. unfold ilog2.
  assert (Hk : (Z.log2 (Qnum a) - Z.log2 (Z.pos (Qden a)) <= j)%Z).
  { unfold Qle in Hj. simpl in Hj. rewrite Z.mul_1_r in Hj.
    apply Z.log2_le_mono in Hj.
    rewrite Z.mul_comm, Z.log2_mul_pow2 in Hj by lia. lia. }
  destruct (Qle_bool _ a); lia.
Qed.

Lemma roundPos_range (a : Q) (K : Z) :
  0 < a -> a <= inject_Z K -> (K <= 2 ^ 52)%Z ->
  0 <= roundPos a /\ roundPos a <= inject_Z K.
Proof.
  intros Ha HK H52. unfold roundPos.
  set (e := Z.max (ilog2 a - 52) (-1074)).
  assert (He : (e <= 0)%Z).
  { assert (ilog2 a <= 52)%Z; [|unfold e; lia].
    apply ilog2_le; [exact Ha| |lia].
    apply Qle_trans with (inject_Z K); [exact HK|].
    rewrite <- Zle_Qle. exact H52. }
  set (P := (2 ^ (- e))%Z).
  assert (HP : (0 < P)%Z) by (apply Z.pow_pos_nonneg; lia).
  assert (HPq : 0 < inject_Z P) by (rewrite Zlt_Qlt in HP; exact HP).
  assert (Ex : a / pow2 e == a * inject_Z P).
  { rewrite (pow2_nonpos e He). fold P. field. lra. }
  assert (R : (0 <= roundEven (a / pow2 e) <= K * P)%Z).
  { apply roundEven_range.
    - rewrite Ex. apply Qmult_le_0_compat; lra.
    - rewrite Ex, inject_Z_mult. apply Qmult_le_compat_r; lra. }
  set (m := roundEven (a / pow2 e)) in *.
  destruct R as [R0 RK]. rewrite Zle_Qle in R0, RK. rewrite inject_Z_mult in RK.
  rewrite (pow2_nonpos e He). fold P. split.
  - apply Qmult_le_0_compat; [exact R0|]. apply Qlt_le_weak, Qinv_lt_0_compat, HPq.
  - apply Qle_shift_div_r; [exact HPq | exact RK].
Qed.

Lemma fl_range (q : Q) (K : Z) :
  0 <= q -> q <= inject_Z K -> (K <= 2 ^ 52)%Z ->
  0 <= fl q /\ fl q <= inject_Z K.
Proof.
  intros H0 HK H52. unfold fl. destruct q as [n d]. simpl Qnum.
  destruct n as [|p|p].
  - split; [lra|]. apply Qle_trans with (0 # d); [|exact HK].
    unfold Qle. simpl. lia.
  - apply roundPos_range; [reflexivity | exact HK | exact H52].
  - exfalso. unfold Qle in H0. simpl in H0. lia.
Qed.

Lemma Math_round_range (y : Q) (K : Z) :
  0 <= y -> y <= inject_Z K -> (0 <= Math_round y <= K)%Z.
Proof.
  intros H0 HK. unfold Math_round. split.
  - change 0%Z with (Qfloor 0). apply Qfloor_resp_le. lra.
  - replace K with (Qfloor (inject_Z K + (1 # 2))).
    + apply Qfloor_resp_le. lra.
    + pose proof (Qfloor_le (inject_Z K + (1 # 2))) as L.
      pose proof (Qlt_floor (inject_Z K + (1 # 2))) as U.
      assert (L' : inject_Z (Qfloor (inject_Z K + (1 # 2))) < inject_Z (K + 1)).
      { rewrite inject_Z_plus. change (inject_Z 1) with 1. lra. }
      assert (U' : inject_Z (K - 1) < inject_Z (Qfloor (inject_Z K + (1 # 2)))).
      { rewrite inject_Z_plus in U. unfold Z.sub. rewrite inject_Z_plus, inject_Z_opp.
        change (inject_Z 1) with 1 in *. lra. }
      rewrite <- Zlt_Qlt in L', U'. lia.
Qed.

End NumberFacts.

(* ================================================================== *)
(** ** The scores *)
(* ================================================================== *)

Section ScoreFacts.
Context {UC : UnicodeCase}.

Lemma percentage_range (part whole : nat) :
  (part <= whole)%nat -> (0 < whole)%nat -> (0 <= percentage part whole <= 100)%Z.
Proof.
  intros Hle Hpos. unfold percentage, multiply, divide.
  set (p := inject_Z (Z.of_nat part)). set (w := inject_Z (Z.of_nat whole)).
  assert (Hw : (0 < w)%Q).
  { unfold w. change 0%Q with (inject_Z 0). rewrite <- Zlt_Qlt. lia. }
  assert (Hp : (0 <= p)%Q).
  { unfold p. change 0%Q with (inject_Z 0). rewrite <- Zle_Qle. lia. }
  assert (Hpw : (p <= w)%Q) by (unfold p, w; rewrite <- Zle_Qle; lia).
  destruct (fl_range (p / w) 1) as [X0 X1].
  - apply Qle_shift_div_l; [exact Hw|]. lra.
  - apply Qle_shift_div_r; [exact Hw|]. change (inject_Z 1) with 1%Q. lra.
  - lia.
  - change (inject_Z 1) with 1%Q in X1.
    destruct (fl_range (fl (p / w) * 100) 100) as [Y0 Y1].
    + lra.
    + change (inject_Z 100) with 100%Q. lra.
    + lia.
    + apply Math_round_range; assumption.
Qed.

Lemma mean_of_four (s : Z) :
  (0 <= s <= 400)%Z -> Math_round (divide (inject_Z s) 4%Q) = ((s + 2) / 4)%Z.
Proof.
  intros Hs.
  assert (T : forallb (fun n => (Math_round (divide (inject_Z (Z.of_nat n)) 4%Q)
                                 =? (Z.of_nat n + 2) / 4)%Z) (seq 0 401) = true)
    by (vm_compute; reflexivity).
  rewrite forallb_forall in T.
  specialize (T (Z.to_nat s)). rewrite Z2Nat.id in T by lia.
  apply Z.eqb_eq, T, in_seq. lia.
Qed.

Lemma countWords_filter (prompt : jsstring) (ws : list jsstring) :
  countWords prompt ws
  = Z.of_nat (List.length (filter (fun w => matchesWord w prompt) ws)).
Proof.
  unfold countWords.
  assert (G : forall acc,
             fold_left (fun a w => (a + (if matchesWord w prompt then 1 else 0))%Z) ws acc
             = (acc + Z.of_nat (List.length (filter (fun w => matchesWord w prompt) ws)))%Z).
  { induction ws as [|w ws IH]; intros acc; simpl; [lia|].
    rewrite IH. destruct (matchesWord w prompt); simpl List.length; lia. }
  rewrite G. lia.
Qed.

Lemma countPasses_filter (prompt : jsstring) (ts : list TestCase) :
  countPasses prompt ts = List.length (filter (passes prompt) ts).
Proof.
  unfold countPasses.
  assert (G : forall acc,
             fold_left (fun a t => (a + (if passes prompt t then 1 else 0))%nat) ts acc
             = (acc + List.length (filter (passes prompt) ts))%nat).
  { induction ts as [|t ts IH]; intros acc; simpl; [lia|].
    rewrite IH. destruct (passes prompt t); simpl List.length; lia. }
  rewrite G. lia.
Qed.

Lemma filter_length_le {A} (f : A -> bool) (xs : list A) :
  (List.length (filter f xs) <= List.length xs)%nat.
Proof.
  induction xs as [|x xs IH]; simpl; [lia|]. destruct (f x); simpl; lia.
Qed.

End ScoreFacts.

(** C1. For every prompt, keyword list and test-case list, [evaluatePrompt]
    returns an Evaluation whose five scores lie between 0 and 100, and
    [overall] is the mean of the other four rounded to the nearest integer
    (a half rounds up): it differs from the mean by at most one half. *)
Theorem evaluatePrompt_scores_in_range
        {UC : UnicodeCase} (prompt : jsstring) (keywords : list jsstring)
        (testCases : list TestCase) :
  exists ev,
    evaluatePrompt prompt keywords testCases = Some ev
    /\ (0 <= clarity ev <= 100)%Z
    /\ (0 <= specificity ev <= 100)%Z
    /\ (0 <= keywordCoverage ev <= 100)%Z
    /\ (0 <= testScore ev <= 100)%Z
    /\ (0 <= overall ev <= 100)%Z
    /\ (4 * overall ev - 2
        <= clarity ev + specificity ev + keywordCoverage ev + testScore ev
        < 4 * overall ev + 2)%Z.
Proof.
  exists (scores prompt keywords testCases).
  split; [apply evaluatePrompt_scores|].
  unfold scores. cbn [clarity specificity keywordCoverage testScore overall].
  set (c := clarityOf prompt).
  set (s := Z.min 100 (countWords prompt specificityWords * 25 + 20)).
  set (k := if (List.length keywords =? 0)%nat then 0%Z else _).
  set (t := if (List.length testCases =? 0)%nat then 0%Z else _).
  assert (Hc : (10 <= c <= 100)%Z) by (unfold c, clarityOf; lia).
  assert (Hs : (20 <= s <= 100)%Z).
  { unfold s. rewrite countWords_filter. lia. }
  assert (Hk : (0 <= k <= 100)%Z).
  { unfold k. destruct (Nat.eqb_spec (List.length keywords) 0); [lia|].
    apply percentage_range; [apply filter_length_le | lia]. }
  assert (Ht : (0 <= t <= 100)%Z).
  { unfold t. destruct (Nat.eqb_spec (List.length testCases) 0); [lia|].
    apply percentage_range; [|lia].
    rewrite countPasses_filter. apply filter_length_le. }
  rewrite mean_of_four by lia.
  pose proof (Z.div_mod (c + s + k + t + 2) 4 ltac:(lia)) as D.
  pose proof (Z.mod_pos_bound (c + s + k + t + 2) 4 ltac:(lia)) as M.
  repeat split; lia.
Qed.

(* ================================================================== *)
(** ** What a pattern of literal code units matches *)
(* ================================================================== *)

Section MatcherFacts.
Context {UC : UnicodeCase}.

Lemma matchTerms_chars (ic : bool) (w : jsstring) (ts : list term) :
  forall prev rest,
    matchTerms ic (map Char w ++ ts) prev rest
    = if startsWith ic w rest
      then option_map (Nat.add (List.length w))
                      (matchTerms ic ts (lastSeen prev (List.length w) rest)
                                  (skipn (List.length w) rest))
      else None.
Proof.
  induction w as [|c w IH]; intros prev rest.
  - simpl. destruct (matchTerms ic ts prev rest); reflexivity.
  - destruct rest as [|x rest]; [reflexivity|].
    cbn [map app matchTerms startsWith List.length lastSeen skipn].
    destruct (charMatches ic c x); [|reflexivity].
    cbn [andb]. rewrite IH.
    destruct (startsWith ic w rest); [|reflexivity].
    destruct (matchTerms ic ts _ _); reflexivity.
Qed.

Lemma isWordChar_spec (c : codeUnit) :
  isWordChar c = true
  <-> (97 <= c <= 122 \/ 65 <= c <= 90 \/ 48 <= c <= 57 \/ c = 95)%N.
Proof.
  unfold isWordChar, inRange.
  change (cu "a") with 97%N. change (cu "z") with 122%N.
  change (cu "A") with 65%N. change (cu "Z") with 90%N.
  change (cu "0") with 48%N. change (cu "9") with 57%N.
  change (cu "_") with 95%N.
  rewrite !orb_true_iff, !andb_true_iff, !N.leb_le, N.eqb_eq. tauto.
Qed.

(** A code unit that equals a word character up to letter case is a word
    character: case folding never leaves or enters ASCII. *)
Lemma charMatches_word (c x : codeUnit) :
  isWordChar c = true -> charMatches true c x = true -> isWordChar x = true.
Proof.
  rewrite !isWordChar_spec. unfold charMatches, Canonicalize, inRange.
  change (cu "a") with 97%N. change (cu "z") with 122%N. cbn [negb].
  intros Hc E. apply N.eqb_eq in E.
  destruct (N.ltb_spec c 128); [|lia].
  destruct (N.leb_spec 97 c); destruct (N.leb_spec c 122); cbn [andb] in E;
    (destruct (N.ltb_spec x 128);
     [ destruct (N.leb_spec 97 x); destruct (N.leb_spec x 122); cbn [andb] in E; lia
     | destruct (N.ltb_spec (unicodeUpper x) 128); lia ]).
Qed.

(** A capital letter and its small form match each other under the [i]
    flag. *)
Lemma charMatches_letter (c : codeUnit) :
  inRange (cu "A") (cu "Z") c = true ->
  charMatches true c (c + 32)%N = true /\ charMatches true (c + 32)%N c = true.
Proof.
  unfold charMatches, Canonicalize, inRange.
  change (cu "a") with 97%N. change (cu "z") with 122%N.
  change (cu "A") with 65%N. change (cu "Z") with 90%N. cbn [negb].
  rewrite andb_true_iff, !N.leb_le. intros [Lo Hi].
  destruct (N.ltb_spec c 128); [|lia].
  destruct (N.ltb_spec (c + 32) 128); [|lia].
  destruct (N.leb_spec 97 c); [lia|].
  destruct (N.leb_spec 97 (c + 32)); [|lia].
  destruct (N.leb_spec (c + 32) 122); [|lia].
  cbn [andb]. rewrite !N.eqb_eq. lia.
Qed.

Lemma startsWith_first (ic : bool) (c : codeUnit) (w rest : jsstring) :
  startsWith ic (c :: w) rest = true ->
  exists x, hd_error rest = Some x /\ charMatches ic c x = true.
Proof.
  destruct rest as [|x rest]; [discriminate|]. simpl.
  rewrite andb_true_iff. intros [H _]. exists x. split; [reflexivity | exact H].
Qed.

Lemma startsWith_last (ic : bool) (c : codeUnit) (w : jsstring) :
  forall prev rest,
    startsWith ic (w ++ [c]) rest = true ->
    exists x, lastSeen prev (List.length (w ++ [c])) rest = Some x
              /\ charMatches ic c x = true.
Proof.
  induction w as [|d w IH]; intros prev rest H.
  - destruct rest as [|x rest]; [discriminate|]. simpl in H.
    rewrite andb_true_iff in H. exists x. split; [reflexivity | apply H].
  - destruct rest as [|x rest]; [discriminate|].
    cbn [app startsWith] in H. rewrite andb_true_iff in H.
    cbn [app List.length lastSeen]. apply IH, H.
Qed.

Lemma wordEnds_inv (w : jsstring) :
  wordEnds w = true ->
  (exists c w', w = c :: w' /\ isWordChar c = true)
  /\ (exists w' c, w = w' ++ [c] /\ isWordChar c = true).
Proof.
  unfold wordEnds. rewrite andb_true_iff. intros [H1 H2]. split.
  - destruct w as [|c w']; [discriminate|]. exists c, w'. split; [reflexivity | exact H1].
  - destruct (rev w) as [|c l] eqn:E; [discriminate|].
    exists (rev l), c. split; [|exact H2].
    rewrite <- (rev_involutive w), E. reflexivity.
Qed.

(** One attempt of [\b w \b] for a word that begins and ends with a word
    character succeeds exactly at a whole-word occurrence. *)
Lemma matchTerms_word (w : jsstring) (prev : option codeUnit) (rest : jsstring) :
  wordEnds w = true ->
  matchTerms true (wordTerms w) prev rest
  = if standaloneAt w prev rest then Some (List.length w) else None.
Proof.
  intros Hw. destruct (wordEnds_inv w Hw) as [(c & w1 & E1 & Hc) (w2 & d & E2 & Hd)].
  unfold wordTerms, standaloneAt.
  cbn [matchTerms]. 
  destruct (startsWith true w rest) eqn:S.
  - assert (F : isWordCharAt (hd_error rest) = true).
    { rewrite E1 in S. destruct (startsWith_first _ _ _ _ S) as (x & -> & M).
      exact (charMatches_word c x Hc M). }
    assert (L : isWordCharAt (lastSeen prev (List.length w) rest) = true).
    { rewrite E2 in S |- *. destruct (startsWith_last _ d w2 prev rest S) as (x & -> & M).
      exact (charMatches_word d x Hd M). }
    rewrite F. destruct (isWordCharAt prev); cbn [xorb negb andb]; [reflexivity|].
    rewrite matchTerms_chars, S. cbn [matchTerms]. rewrite L.
    destruct (isWordCharAt (hd_error (skipn (List.length w) rest)));
      cbn [xorb negb option_map]; [reflexivity|].
    rewrite Nat.add_0_r. reflexivity.
  - rewrite andb_false_r. cbn [andb].
    destruct (xorb _ _); [|reflexivity].
    rewrite matchTerms_chars, S. reflexivity.
Qed.

End MatcherFacts.

Section SearchFacts.
Context {UC : UnicodeCase}.

Lemma searchFrom_word (w : jsstring) :
  wordEnds w = true ->
  forall rest prev index,
    isSome (searchFrom true (wordTerms w) prev rest index)
    = occursFrom w prev rest.
Proof.
  intros Hw. induction rest as [|x rest IH]; intros prev index;
    cbn [searchFrom occursFrom]; rewrite (matchTerms_word w _ _ Hw);
    destruct (standaloneAt w prev _); cbn [orb isSome]; try reflexivity.
  apply IH.
Qed.

Lemma matchesWord_occurs (w prompt : jsstring) :
  wordEnds w = true -> matchesWord w prompt = occursWholeWord w prompt.
Proof.
  intros Hw. unfold matchesWord, test, occursWholeWord.
  cbn [wordRegExp source flags ignoreCase flags_i].
  rewrite <- (searchFrom_word w Hw prompt None 0).
  destruct (searchFrom _ _ _ _ _); reflexivity.
Qed.

(** The empty word: [\b\b] is found exactly when the input has a word
    character. *)
Lemma searchFrom_empty_word :
  forall rest prev index,
    isSome (searchFrom true (wordTerms []) prev rest index)
    = isWordCharAt prev || existsb isWordChar rest.
Proof.
  induction rest as [|x rest IH]; intros prev index;
    cbn [searchFrom wordTerms map app matchTerms hd_error isWordCharAt existsb].
  - destruct (isWordCharAt prev); reflexivity.
  - destruct (isWordCharAt prev), (isWordChar x) eqn:X; cbn [xorb orb isSome];
      try reflexivity; rewrite IH; cbn [isWordCharAt]; rewrite X; reflexivity.
Qed.

Lemma matchesWord_empty (prompt : jsstring) :
  matchesWord [] prompt = existsb isWordChar prompt.
Proof.
  unfold matchesWord, test. cbn [wordRegExp source flags ignoreCase flags_i].
  pose proof (searchFrom_empty_word prompt None 0) as H.
  destruct (searchFrom _ _ _ _ _); exact H.
Qed.

Lemma replaceFrom_word (w by_ : jsstring) :
  wordEnds w = true ->
  (forall matched before after, GetSubstitution matched before after by_ = by_) ->
  forall rest seen skip,
    replaceFrom {| source := wordTerms w; flags := flags_ig |} by_ seen rest skip
    = replaceWordFrom w by_ (hd_error seen) rest skip.
Proof.
  intros Hw Hby. induction rest as [|x rest IH]; intros seen skip.
  - destruct skip; cbn [replaceFrom replaceWordFrom]; [|reflexivity].
    cbn [source flags ignoreCase global flags_ig].
    rewrite (matchTerms_word w _ _ Hw).
    destruct (wordEnds_inv w Hw) as [(c & w1 & -> & _) _].
    unfold standaloneAt. cbn [startsWith]. rewrite andb_false_r. reflexivity.
  - destruct skip as [|k]; cbn [replaceFrom replaceWordFrom].
    + cbn [source flags ignoreCase global flags_ig].
      rewrite (matchTerms_word w _ _ Hw).
      destruct (standaloneAt w (hd_error seen) (x :: rest)).
      * rewrite Hby. destruct (wordEnds_inv w Hw) as [(c & w1 & -> & _) _].
        cbn [List.length Nat.sub]. rewrite IH, ?Nat.sub_0_r. reflexivity.
      * rewrite IH. reflexivity.
    + rewrite IH. reflexivity.
Qed.

Lemma replace_word (w by_ prompt : jsstring) :
  wordEnds w = true ->
  (forall matched before after, GetSubstitution matched before after by_ = by_) ->
  replace {| source := wordTerms w; flags := flags_ig |} by_ prompt
  = replaceWord w by_ prompt.
Proof.
  intros Hw Hby. unfold replace, replaceWord.
  rewrite (replaceFrom_word w by_ Hw Hby). reflexivity.
Qed.

(** Where [w] has no whole-word occurrence, nothing is replaced. *)
Lemma replaceWord_without_occurrence (w by_ prompt : jsstring) :
  occursWholeWord w prompt = false -> replaceWord w by_ prompt = prompt.
Proof.
  unfold occursWholeWord, replaceWord. generalize (@None codeUnit).
  induction prompt as [|x rest IH]; intros prev H; [reflexivity|].
  cbn [occursFrom] in H. apply orb_false_iff in H. destruct H as [Here Later].
  cbn [replaceWordFrom]. rewrite Here, (IH _ Later). reflexivity.
Qed.

End SearchFacts.

Section OccurrenceFacts.
Context {UC : UnicodeCase}.

Lemma startsWith_iff (ic : bool) (w : jsstring) :
  forall rest,
    startsWith ic w rest = true
    <-> exists occ after, rest = occ ++ after /\ sameUpToCase ic w occ.
Proof.
  unfold sameUpToCase. induction w as [|c w IH]; intros rest.
  - split; [intros _; exists [], rest; split; reflexivity | reflexivity].
  - destruct rest as [|x rest]; cbn [startsWith].
    + split; [discriminate|]. intros (occ & after & E & M).
      destruct occ; discriminate.
    + rewrite andb_true_iff, IH. unfold charMatches. rewrite N.eqb_eq. split.
      * intros (Hc & occ & after & -> & M). exists (x :: occ), after.
        split; [reflexivity|]. cbn [map]. rewrite Hc, M. reflexivity.
      * intros (occ & after & E & M). destruct occ as [|y occ]; [discriminate|].
        cbn [map app] in E, M. injection E as -> ->. injection M as Hc M.
        split; [exact Hc|]. exists occ, after. split; [reflexivity | exact M].
Qed.

Lemma startsWith_split (ic : bool) (w : jsstring) :
  forall rest occ after,
    rest = occ ++ after -> sameUpToCase ic w occ ->
    startsWith ic w rest = true /\ skipn (List.length w) rest = after.
Proof.
  unfold sameUpToCase. induction w as [|c w IH]; intros rest occ after E M.
  - destruct occ; [|discriminate]. subst. split; reflexivity.
  - destruct occ as [|y occ]; [discriminate|]. subst rest.
    cbn [map] in M. injection M as Hc M.
    destruct (IH (occ ++ after) occ after eq_refl M) as [S K].
    cbn [app startsWith List.length skipn]. rewrite S, K.
    unfold charMatches. rewrite Hc, N.eqb_refl. split; reflexivity.
Qed.

Lemma startsWith_firstn (ic : bool) (w : jsstring) :
  forall rest,
    startsWith ic w rest = true ->
    rest = firstn (List.length w) rest ++ skipn (List.length w) rest
    /\ sameUpToCase ic w (firstn (List.length w) rest).
Proof.
  unfold sameUpToCase. induction w as [|c w IH]; intros rest H.
  - split; reflexivity.
  - destruct rest as [|x rest]; [discriminate|]. cbn [startsWith] in H.
    apply andb_true_iff in H. destruct H as [Hc H]. destruct (IH rest H) as [E M].
    cbn [List.length firstn skipn map app]. split.
    + rewrite <- E. reflexivity.
    + unfold charMatches in Hc. apply N.eqb_eq in Hc. rewrite Hc, M. reflexivity.
Qed.

(** [occursFrom] finds exactly the occurrences that the glossary calls
    whole-word matches. *)
Lemma occursFrom_iff (w : jsstring) :
  forall rest prev,
    occursFrom w prev rest = true
    <-> exists before occ after,
        rest = before ++ occ ++ after
        /\ sameUpToCase true w occ
        /\ isWordCharAt (lastOr prev before) = false
        /\ isWordCharAt (hd_error after) = false.
Proof.
  assert (Here : forall rest prev,
             standaloneAt w prev rest = true
             <-> exists occ after,
                 rest = occ ++ after /\ sameUpToCase true w occ
                 /\ isWordCharAt prev = false /\ isWordCharAt (hd_error after) = false).
  { intros rest prev. unfold standaloneAt.
    rewrite !andb_true_iff, !negb_true_iff. split.
    - intros [[P S] A]. destruct (startsWith_firstn true w rest S) as [E M].
      exists (firstn (List.length w) rest), (skipn (List.length w) rest). tauto.
    - intros (occ & after & E & M & P & A).
      destruct (startsWith_split true w rest occ after E M) as [S K].
      rewrite S, K. tauto. }
  induction rest as [|x rest IH]; intros prev; cbn [occursFrom].
  - rewrite orb_false_r, Here. split.
    + intros (occ & after & E & M & P & A). exists [], occ, after. tauto.
    + intros (before & occ & after & E & M & P & A).
      destruct before; [|discriminate]. exists occ, after. tauto.
  - rewrite orb_true_iff, Here, IH. split.
    + intros [(occ & after & E & M & P & A) | (before & occ & after & E & M & P & A)].
      * exists [], occ, after. tauto.
      * exists (x :: before), occ, after. subst rest. tauto.
    + intros (before & occ & after & E & M & P & A). destruct before as [|y before].
      * left. exists occ, after. tauto.
      * right. cbn [app] in E. injection E as -> ->. exists before, occ, after. tauto.
Qed.

End OccurrenceFacts.

Section LiteralFacts.
Context {UC : UnicodeCase}.

Lemma Canonicalize_exact (w : jsstring) : map (Canonicalize false) w = w.
Proof. induction w as [|c w IH]; [reflexivity|]. cbn [map]. rewrite IH. reflexivity. Qed.

Lemma startsWith_exact (s rest : jsstring) :
  startsWith false s rest = true <-> firstn (List.length s) rest = s.
Proof.
  split.
  - intros H. destruct (startsWith_firstn false s rest H) as [_ M].
    unfold sameUpToCase in M. rewrite !Canonicalize_exact in M. symmetry. exact M.
  - intros H. apply startsWith_iff.
    exists s, (skipn (List.length s) rest). split.
    + pose proof (firstn_skipn (List.length s) rest) as E.
      rewrite H in E. symmetry. exact E.
    + reflexivity.
Qed.

Lemma matchTerms_literal (s : jsstring) (prev : option codeUnit) (rest : jsstring) :
  matchTerms false (map Char s) prev rest
  = if startsWith false s rest then Some (List.length s) else None.
Proof.
  rewrite <- (app_nil_r (map Char s)), matchTerms_chars.
  destruct (startsWith false s rest); [|reflexivity].
  cbn [matchTerms option_map]. rewrite Nat.add_0_r. reflexivity.
Qed.

Lemma searchFrom_here (ic : bool) (ts : list term) (prev : option codeUnit)
      (rest : jsstring) (index n : nat) :
  matchTerms ic ts prev rest = Some n -> searchFrom ic ts prev rest index = Some (index, n).
Proof. intros H. destruct rest; cbn [searchFrom]; rewrite H; reflexivity. Qed.

End LiteralFacts.

(** C7. The Escaper puts a backslash before each of the fourteen characters
    [. * + ? ^ $ { } ( ) | [ ] \] and copies every other code unit; the
    result always parses as a pattern, and one attempt of that pattern at any
    position of any input succeeds exactly when the input reads [s] there,
    consuming [s] and nothing more.  Against [s] itself the match is found at
    index 0 and covers all of [s]. *)
Theorem escapeRegExp_matches_literally {UC : UnicodeCase} (s : jsstring) :
  (forall c, isSyntaxCharacter c = true <-> In c (str ".*+?^${}()|[]\"))
  /\ escapeRegExp s = flat_map escapeUnit s
  /\ exists r,
      RegExp_new (escapeRegExp s) [] = Some r
      /\ (forall prev rest n,
             matchTerms (ignoreCase (flags r)) (source r) prev rest = Some n
             <-> firstn (List.length s) rest = s /\ n = List.length s)
      /\ searchFrom (ignoreCase (flags r)) (source r) None s 0 = Some (0, List.length s)
      /\ test r s = true.
Proof.
  split; [|split].
  - intros c. unfold isSyntaxCharacter. rewrite mem_In. cbv. tauto.
  - apply escapeRegExp_units.
  - exists {| source := map Char s; flags := {| global := false; ignoreCase := false |} |}.
    assert (Self : matchTerms false (map Char s) None s = Some (List.length s)).
    { rewrite matchTerms_literal.
      replace (startsWith false s s) with true; [reflexivity|].
      symmetry. apply startsWith_exact, firstn_all. }
    split; [|split; [|split]].
    + rewrite escapeRegExp_units. unfold RegExp_new.
      rewrite <- (app_nil_r (flat_map escapeUnit s)), parseTerms_escaped.
      cbn. rewrite app_nil_r. reflexivity.
    + intros prev rest n. cbn [source flags ignoreCase].
      rewrite matchTerms_literal, <- startsWith_exact.
      destruct (startsWith false s rest); split.
      * intros E. injection E as <-. split; reflexivity.
      * intros [_ ->]. reflexivity.
      * discriminate.
      * intros [E _]. discriminate.
    + cbn [source flags ignoreCase]. apply searchFrom_here, Self.
    + unfold test. cbn [source flags ignoreCase].
      rewrite (searchFrom_here _ _ _ _ 0 _ Self). reflexivity.
Qed.

(** C10. The empty keyword is escaped to the empty pattern, so its test is
    [\b\b]; it is among [foundKeywords] exactly when it is among the keywords
    and the prompt has a word character, and [keywordCoverage] is computed
    from the number of found keywords, the empty one included.  As the only
    keyword it gives a coverage of 100 when the prompt has a word character
    and of 0 when it has none. *)
Theorem empty_keyword_found_iff_word_character
        {UC : UnicodeCase} (prompt : jsstring) (keywords : list jsstring)
        (testCases : list TestCase) :
  escapeRegExp [] = []
  /\ RegExp_new (str "\b" ++ escapeRegExp [] ++ str "\b") (str "i")
     = Some {| source := [WordBoundary; WordBoundary]; flags := flags_i |}
  /\ (exists ev,
         evaluatePrompt prompt keywords testCases = Some ev
         /\ (In [] (foundKeywords ev)
             <-> In [] keywords /\ existsb isWordChar prompt = true)
         /\ keywordCoverage ev
            = if (List.length keywords =? 0)%nat then 0%Z
              else percentage (List.length (foundKeywords ev)) (List.length keywords))
  /\ (exists ev,
         evaluatePrompt prompt [[]] testCases = Some ev
         /\ foundKeywords ev = (if existsb isWordChar prompt then [[]] else [])
         /\ keywordCoverage ev = (if existsb isWordChar prompt then 100 else 0)%Z).
Proof.
  split; [reflexivity|]. split; [reflexivity|]. split.
  - exists (scores prompt keywords testCases).
    split; [apply evaluatePrompt_scores|]. split; [|reflexivity].
    unfold scores. cbn [foundKeywords]. rewrite filter_In, matchesWord_empty. reflexivity.
  - exists (scores prompt [[]] testCases).
    split; [apply evaluatePrompt_scores|].
    unfold scores. cbn [foundKeywords keywordCoverage filter List.length Nat.eqb].
    rewrite matchesWord_empty.
    destruct (existsb isWordChar prompt); split; try reflexivity;
      vm_compute; reflexivity.
Qed.

(** C5 (as amended).  For a term that begins and ends with a word character,
    as every word of the specificity vocabulary does, matching is whole-word
    and case-insensitive: the term counts exactly when the prompt holds an
    occurrence of it, in any letter case, whose neighbours, where there are
    any, are not word characters.  This decides the specificity count, the
    found keywords and the test cases that pass. *)
Theorem word_terms_match_whole_words
        {UC : UnicodeCase} (prompt : jsstring) (keywords : list jsstring)
        (testCases : list TestCase) :
  forallb wordEnds specificityWords = true
  /\ (forall c,
         inRange (cu "A") (cu "Z") c = true ->
         charMatches true c (c + 32)%N = true /\ charMatches true (c + 32)%N c = true)
  /\ (forall w,
         occursWholeWord w prompt = true
         <-> exists before occ after,
             prompt = before ++ occ ++ after
             /\ sameUpToCase true w occ
             /\ isWordCharAt (lastOr None before) = false
             /\ isWordCharAt (hd_error after) = false)
  /\ exists ev,
      evaluatePrompt prompt keywords testCases = Some ev
      /\ specificity ev
         = Z.min 100
             (Z.of_nat (List.length
                          (filter (fun w => occursWholeWord w prompt) specificityWords))
              * 25 + 20)
      /\ (forall k,
             wordEnds k = true ->
             (In k (foundKeywords ev) <-> In k keywords /\ occursWholeWord k prompt = true))
      /\ testScore ev
         = (if (List.length testCases =? 0)%nat then 0%Z
            else percentage (List.length (filter (passes prompt) testCases))
                            (List.length testCases))
      /\ (forall t,
             (forall r, In r (orEmpty (mustInclude t)) -> wordEnds r = true) ->
             passes prompt t
             = forallb (fun r => occursWholeWord r prompt) (orEmpty (mustInclude t))).
Proof.
  split; [reflexivity|]. split; [apply charMatches_letter|].
  split; [intros w; apply occursFrom_iff|].
  exists (scores prompt keywords testCases).
  split; [apply evaluatePrompt_scores|].
  unfold scores. cbn [specificity foundKeywords testScore].
  split; [|split; [|split]].
  - rewrite countWords_filter. do 5 f_equal.
    apply filter_ext_in. intros w Hw. apply matchesWord_occurs.
    unfold specificityWords in Hw. simpl map in Hw.
    each_member Hw; reflexivity.
  - intros k Hk. rewrite filter_In, (matchesWord_occurs k prompt Hk). reflexivity.
  - rewrite countPasses_filter. reflexivity.
  - intros t Ht. unfold passes.
    induction (orEmpty (mustInclude t)) as [|r rs IH]; [reflexivity|].
    cbn [forallb]. rewrite (matchesWord_occurs r prompt (Ht r (or_introl eq_refl))).
    rewrite IH; [reflexivity|]. intros r' Hr'. apply Ht. right. exact Hr'.
Qed.

(** C5, as first stated, fails: ["c++"] stands in the prompt between two
    spaces, and yet it is not counted. *)
Lemma symbol_ended_term_not_counted :
  exists ev,
    evaluatePrompt (UC := plainCase) (str "I like c++ a lot") [str "c++"] [] = Some ev
    /\ foundKeywords ev = []
    /\ keywordCoverage ev = 0%Z
    /\ occursWholeWord (UC := plainCase) (str "c++") (str "I like c++ a lot") = true
    /\ str "I like c++ a lot" = str "I like " ++ str "c++" ++ str " a lot"
    /\ isWordCharAt (lastOr None (str "I like ")) = false
    /\ isWordCharAt (hd_error (str " a lot")) = false.
Proof. eexists. vm_compute. repeat split. Qed.

(* ================================================================== *)
(** ** After the replacement no whole-word occurrence is left *)
(* ================================================================== *)

Section RemovalFacts.
Context {UC : UnicodeCase}.
Variables w by_ : jsstring.
Hypothesis w_word : allWord w = true.
Hypothesis w_nonempty : w <> [].
Hypothesis by_word : allWord by_ = true.
Hypothesis by_differs : startsWith true w by_ && (List.length by_ <=? List.length w)%nat = false.

Lemma replaceWordFrom_skip (rest : jsstring) :
  forall prev k,
    replaceWordFrom w by_ prev rest k
    = replaceWordFrom w by_ (lastSeen prev k rest) (skipn k rest) 0.
Proof.
  induction rest as [|x rest IH]; intros prev [|k]; try reflexivity.
  cbn [replaceWordFrom lastSeen skipn]. apply IH.
Qed.

Lemma standaloneAt_after_word (prev : option codeUnit) (rest : jsstring) :
  isWordCharAt prev = true -> standaloneAt w prev rest = false.
Proof. intros H. unfold standaloneAt. rewrite H. reflexivity. Qed.

Lemma startsWith_not_word (y : codeUnit) (t : jsstring) :
  isWordChar y = false -> startsWith true w (y :: t) = false.
Proof.
  intros Hy. destruct w as [|c w'] eqn:E; [contradiction|].
  cbn [startsWith]. destruct (charMatches true c y) eqn:M; [|reflexivity].
  unfold allWord in w_word. cbn [forallb] in w_word.
  apply andb_true_iff in w_word. destruct w_word as [Hc _].
  rewrite (charMatches_word c y Hc M) in Hy. discriminate.
Qed.

Lemma standaloneAt_not_word (prev : option codeUnit) (y : codeUnit) (t : jsstring) :
  isWordChar y = false -> standaloneAt w prev (y :: t) = false.
Proof.
  intros Hy. unfold standaloneAt. rewrite (startsWith_not_word y t Hy).
  rewrite andb_false_r. reflexivity.
Qed.

Lemma standaloneAt_nil (prev : option codeUnit) : standaloneAt w prev [] = false.
Proof.
  unfold standaloneAt. destruct w; [contradiction|].
  cbn [startsWith]. rewrite andb_false_r. reflexivity.
Qed.

(** While the output reads word characters, it copies the input. *)
Lemma copied_prefix (v : jsstring) :
  allWord v = true ->
  forall rest prev,
    standaloneAt w prev rest = false ->
    startsWith true v (replaceWordFrom w by_ prev rest 0) = true ->
    startsWith true v rest = true
    /\ skipn (List.length v) (replaceWordFrom w by_ prev rest 0)
       = replaceWordFrom w by_ (lastSeen prev (List.length v) rest)
                         (skipn (List.length v) rest) 0
    /\ (v <> [] -> isWordCharAt (lastSeen prev (List.length v) rest) = true).
Proof.
  induction v as [|c v IH]; intros Hv rest prev Hno Hout.
  - repeat split. intros H. contradiction.
  - unfold allWord in Hv. cbn [forallb] in Hv. apply andb_true_iff in Hv.
    destruct Hv as [Hc Hv].
    destruct rest as [|x rest]; [discriminate|].
    cbn [replaceWordFrom] in Hout |- *. rewrite Hno in Hout |- *.
    cbn [startsWith] in Hout |- *. apply andb_true_iff in Hout.
    destruct Hout as [M Hout]. rewrite M.
    assert (Hx : isWordChar x = true) by exact (charMatches_word c x Hc M).
    destruct (IH Hv rest (Some x) (standaloneAt_after_word (Some x) rest Hx) Hout)
      as (S1 & S2 & S3).
    cbn [List.length skipn lastSeen andb]. repeat split; try assumption.
    intros _. destruct v as [|d v]; [exact Hx | apply S3; discriminate].
Qed.

(** Where the input has no occurrence at a position, the output has none
    at the same position. *)
Lemma standaloneAt_output (prev : option codeUnit) (rest : jsstring) :
  standaloneAt w prev rest = false ->
  standaloneAt w prev (replaceWordFrom w by_ prev rest 0) = false.
Proof.
  intros Hno. destruct (isWordCharAt prev) eqn:P;
    [apply standaloneAt_after_word, P|].
  destruct (startsWith true w (replaceWordFrom w by_ prev rest 0)) eqn:Sout;
    [|unfold standaloneAt; rewrite Sout, andb_false_r; reflexivity].
  destruct (copied_prefix w w_word rest prev Hno Sout) as (S1 & S2 & S3).
  specialize (S3 w_nonempty).
  unfold standaloneAt in Hno |- *. rewrite P, S1 in Hno. cbn [negb andb] in Hno.
  apply negb_false_iff in Hno.
  rewrite P, Sout, S2. cbn [negb andb].
  destruct (skipn (List.length w) rest) as [|y r]; [discriminate|].
  cbn [hd_error isWordCharAt] in Hno.
  cbn [replaceWordFrom]. rewrite (standaloneAt_after_word _ (y :: r) S3).
  cbn [hd_error isWordCharAt]. rewrite Hno. reflexivity.
Qed.

Lemma startsWith_app_word (v : jsstring) :
  allWord v = true ->
  forall b tail,
    isWordCharAt (hd_error tail) = false ->
    startsWith true v (b ++ tail) = true -> startsWith true v b = true.
Proof.
  induction v as [|c v IH]; intros Hv b tail Ht H; [reflexivity|].
  unfold allWord in Hv. cbn [forallb] in Hv. apply andb_true_iff in Hv.
  destruct Hv as [Hc Hv]. destruct b as [|x b].
  - destruct tail as [|y t]; [discriminate|]. cbn [app startsWith] in H.
    apply andb_true_iff in H. destruct H as [M _].
    cbn [hd_error isWordCharAt] in Ht.
    rewrite (charMatches_word c y Hc M) in Ht. discriminate.
  - cbn [app startsWith] in H |- *. apply andb_true_iff in H. destruct H as [M H].
    rewrite M. exact (IH Hv b tail Ht H).
Qed.

Lemma startsWith_length (ic : bool) (v : jsstring) :
  forall b, startsWith ic v b = true -> (List.length v <= List.length b)%nat.
Proof.
  induction v as [|c v IH]; intros b H; [cbn; lia|].
  destruct b as [|x b]; [discriminate|]. cbn [startsWith] in H.
  apply andb_true_iff in H. destruct H as [_ H]. specialize (IH b H). cbn. lia.
Qed.

Lemma hd_skipn_word (b tail : jsstring) (n : nat) :
  allWord b = true -> (n < List.length b)%nat ->
  isWordCharAt (hd_error (skipn n (b ++ tail))) = true.
Proof.
  revert n. induction b as [|x b IH]; intros n Hb Hn; [cbn in Hn; lia|].
  unfold allWord in Hb. cbn [forallb] in Hb. apply andb_true_iff in Hb.
  destruct Hb as [Hx Hb]. destruct n as [|n]; [exact Hx|].
  cbn [app skipn]. apply IH; [exact Hb | cbn in Hn; lia].
Qed.

(** The replacement itself is no occurrence of [w]. *)
Lemma standaloneAt_inserted (prev : option codeUnit) (tail : jsstring) :
  isWordCharAt (hd_error tail) = false ->
  standaloneAt w prev (by_ ++ tail) = false.
Proof.
  intros Ht. unfold standaloneAt.
  destruct (startsWith true w (by_ ++ tail)) eqn:S;
    [|rewrite andb_false_r; reflexivity].
  pose proof (startsWith_app_word w w_word by_ tail Ht S) as Sb.
  pose proof (startsWith_length true w by_ Sb) as Len.
  rewrite Sb in by_differs. cbn [andb] in by_differs.
  apply Nat.leb_gt in by_differs.
  rewrite (hd_skipn_word by_ tail (List.length w) by_word by_differs).
  rewrite andb_false_r. reflexivity.
Qed.

Lemma occursFrom_word_run (b tail : jsstring) :
  allWord b = true ->
  forall prev,
    isWordCharAt prev = true ->
    occursFrom w prev (b ++ tail) = occursFrom w (lastOr prev b) tail.
Proof.
  induction b as [|x b IH]; intros Hb prev Hp; [reflexivity|].
  unfold allWord in Hb. cbn [forallb] in Hb. apply andb_true_iff in Hb.
  destruct Hb as [Hx Hb].
  cbn [app occursFrom lastOr]. rewrite (standaloneAt_after_word prev _ Hp).
  cbn [orb]. apply (IH Hb (Some x) Hx).
Qed.

Lemma occursFrom_inserted (prev : option codeUnit) (tail : jsstring) :
  isWordCharAt (hd_error tail) = false ->
  (forall p, occursFrom w p tail = false) ->
  occursFrom w prev (by_ ++ tail) = false.
Proof.
  intros Ht Hclean. pose proof (standaloneAt_inserted prev tail Ht) as Here.
  destruct by_ as [|x b] eqn:E; [apply Hclean|].
  unfold allWord in by_word. cbn [forallb] in by_word.
  apply andb_true_iff in by_word. destruct by_word as [Hx Hb].
  cbn [app occursFrom] in Here |- *. rewrite Here. cbn [orb].
  rewrite (occursFrom_word_run b tail Hb (Some x) Hx). apply Hclean.
Qed.

Lemma replaceWordFrom_clean (n : nat) :
  forall rest prev,
    (List.length rest <= n)%nat ->
    occursFrom w prev (replaceWordFrom w by_ prev rest 0) = false.
Proof.
  induction n as [|n IH]; intros rest prev Hn.
  - destruct rest; [|cbn in Hn; lia]. cbn. rewrite standaloneAt_nil. reflexivity.
  - destruct rest as [|x r].
    + cbn. rewrite standaloneAt_nil. reflexivity.
    + cbn [List.length] in Hn.
      destruct (standaloneAt w prev (x :: r)) eqn:Here.
      * cbn [replaceWordFrom]. rewrite Here, replaceWordFrom_skip.
        unfold standaloneAt in Here. rewrite !andb_true_iff, !negb_true_iff in Here.
        destruct Here as [[P Sw] A].
        assert (Lw : exists k, List.length w = S k).
        { clear - w_nonempty. destruct w as [|c w']; [contradiction|].
          exists (List.length w'). reflexivity. }
        destruct Lw as [k Lw]. rewrite Lw in A |- *.
        cbn [skipn Nat.sub] in A |- *. rewrite Nat.sub_0_r.
        pose proof (length_skipn k r) as Lr.
        destruct (skipn k r) as [|y r'] eqn:K.
        -- apply occursFrom_inserted; [reflexivity|].
           intros p. cbn. rewrite standaloneAt_nil. reflexivity.
        -- cbn [hd_error isWordCharAt] in A. cbn [replaceWordFrom].
           rewrite (standaloneAt_not_word _ y r' A).
           apply occursFrom_inserted; [exact A|].
           intros p. cbn [occursFrom].
           rewrite (standaloneAt_not_word p y _ A). cbn [orb].
           apply IH. cbn [List.length] in Lr. lia.
      * pose proof (standaloneAt_output prev (x :: r) Here) as Out.
        cbn [replaceWordFrom] in Out |- *. rewrite Here in Out |- *.
        cbn [occursFrom]. rewrite Out. cbn [orb]. apply IH. lia.
Qed.

(** After the replacement of every whole-word occurrence of [w] none is
    left. *)
Lemma replaceWord_clean (prompt : jsstring) :
  occursWholeWord w (replaceWord w by_ prompt) = false.
Proof. apply (replaceWordFrom_clean (List.length prompt)). lia. Qed.

End RemovalFacts.

(* ------------------------------------------------------------------ *)
(** *** Trimming *)

Section TrimFacts.

Lemma trimStart_strips (s : jsstring) :
  exists ws, s = ws ++ trimStart s /\ forallb isWhiteSpace ws = true.
Proof.
  induction s as [|c s IH]; [exists []; split; reflexivity|].
  cbn [trimStart]. destruct (isWhiteSpace c) eqn:W.
  - destruct IH as (ws & E & F). exists (c :: ws). split.
    + cbn [app]. rewrite <- E. reflexivity.
    + cbn [forallb]. rewrite W, F. reflexivity.
  - exists []. split; reflexivity.
Qed.

Lemma trimStart_head (s : jsstring) (c : codeUnit) :
  hd_error (trimStart s) = Some c -> isWhiteSpace c = false.
Proof.
  induction s as [|x s IH]; cbn [trimStart]; [discriminate|].
  destruct (isWhiteSpace x) eqn:W; [exact IH|].
  cbn. intros E. injection E as <-. exact W.
Qed.

Lemma lastOr_snoc (prev : option codeUnit) (s : jsstring) (c : codeUnit) :
  lastOr prev (s ++ [c]) = Some c.
Proof. revert prev. induction s as [|x s IH]; intros prev; cbn; auto. Qed.

Lemma lastOr_rev (s : jsstring) : lastOr None (rev s) = hd_error s.
Proof. destruct s as [|x s]; [reflexivity|]. cbn [rev]. apply lastOr_snoc. Qed.

Lemma hd_error_rev (s : jsstring) : hd_error (rev s) = lastOr None s.
Proof. rewrite <- (rev_involutive s) at 2. symmetry. apply lastOr_rev. Qed.

Lemma forallb_rev (f : codeUnit -> bool) (s : jsstring) :
  forallb f s = true -> forallb f (rev s) = true.
Proof.
  rewrite !forallb_forall. intros F x I. apply F, in_rev, I.
Qed.

Lemma trimEnd_strips (s : jsstring) :
  exists ws, s = trimEnd s ++ ws /\ forallb isWhiteSpace ws = true.
Proof.
  destruct (trimStart_strips (rev s)) as (ws & E & F).
  exists (rev ws). unfold trimEnd. split; [|now apply forallb_rev].
  rewrite <- rev_app_distr, <- E. symmetry. apply rev_involutive.
Qed.

Lemma trimEnd_last (s : jsstring) (c : codeUnit) :
  lastOr None (trimEnd s) = Some c -> isWhiteSpace c = false.
Proof. unfold trimEnd. rewrite lastOr_rev. apply trimStart_head. Qed.

Lemma trimEnd_head (s : jsstring) (c : codeUnit) :
  hd_error (trimEnd s) = Some c -> hd_error s = Some c.
Proof.
  destruct (trimEnd_strips s) as (ws & E & _). intros Hd.
  rewrite E. destruct (trimEnd s); [discriminate|exact Hd].
Qed.

(** [trim] takes the white space away from the two ends. *)
Lemma trim_trimmedOf (s : jsstring) : trimmedOf s (trim s).
Proof.
  unfold trimmedOf, trim. split; [|split].
  - destruct (trimStart_strips s) as (ws1 & E1 & F1).
    destruct (trimEnd_strips (trimStart s)) as (ws2 & E2 & F2).
    exists ws1, ws2. split; [|split]; auto.
    rewrite <- E2. exact E1.
  - intros c Hd. apply trimEnd_head in Hd. now apply trimStart_head in Hd.
  - apply trimEnd_last.
Qed.

(** White space in front of a text that does not begin with white space is
    determined by the whole. *)
Lemma leading_space_unique (b b' u u' : jsstring) (c c' : codeUnit) :
  forallb isWhiteSpace b = true -> forallb isWhiteSpace b' = true ->
  hd_error u = Some c -> isWhiteSpace c = false ->
  hd_error u' = Some c' -> isWhiteSpace c' = false ->
  b ++ u = b' ++ u' -> u = u'.
Proof.
  revert b'. induction b as [|x b IH]; intros [|y b'] B B' U C U' C' E;
    cbn [app forallb] in *.
  - exact E.
  - destruct u as [|z u]; [discriminate|]. injection U as ->.
    injection E as -> _. apply andb_true_iff in B' as [B' _]. congruence.
  - destruct u' as [|z u']; [discriminate|]. injection U' as ->.
    injection E as -> _. apply andb_true_iff in B as [B _]. congruence.
  - injection E as _ E. apply andb_true_iff in B as [_ B].
    apply andb_true_iff in B' as [_ B']. eapply IH; eauto.
Qed.

Lemma all_space_nil (b t a : jsstring) :
  forallb isWhiteSpace (b ++ t ++ a) = true ->
  (forall c, hd_error t = Some c -> isWhiteSpace c = false) -> t = [].
Proof.
  intros F Hd. destruct t as [|c t]; [reflexivity|].
  rewrite forallb_app in F. apply andb_true_iff in F as [_ F].
  cbn in F. apply andb_true_iff in F as [F _].
  rewrite (Hd c eq_refl) in F. discriminate.
Qed.

(** There is one way only to take the white space away from the ends. *)
Lemma trimmedOf_unique (s t t' : jsstring) :
  trimmedOf s t -> trimmedOf s t' -> t = t'.
Proof.
  intros ((b & a & E & B & A) & Hd & La) ((b' & a' & E' & B' & A') & Hd' & La').
  destruct t as [|c t].
  { symmetry. apply (all_space_nil b' t' a'); [|exact Hd'].
    rewrite <- E', E. cbn. rewrite forallb_app, B, A. reflexivity. }
  destruct t' as [|c' t'].
  { apply (all_space_nil b (c :: t) a); [|exact Hd].
    rewrite <- E, E'. cbn. rewrite forallb_app, B', A'. reflexivity. }
  assert (M : (c :: t) ++ a = (c' :: t') ++ a').
  { apply (leading_space_unique b b' ((c :: t) ++ a) ((c' :: t') ++ a') c c' B B'
                                  eq_refl (Hd c eq_refl) eq_refl (Hd' c' eq_refl)).
    rewrite <- E. exact E'. }
  apply (f_equal (@rev _)) in M. rewrite !rev_app_distr in M.
  assert (R : rev (c :: t) = rev (c' :: t')).
  { destruct (lastOr None (c :: t)) as [l|] eqn:L.
    2:{ rewrite <- hd_error_rev in L. destruct (rev (c :: t)) eqn:Z; [|discriminate].
        apply (f_equal (@List.length _)) in Z. rewrite length_rev in Z. discriminate. }
    destruct (lastOr None (c' :: t')) as [l'|] eqn:L'.
    2:{ rewrite <- hd_error_rev in L'. destruct (rev (c' :: t')) eqn:Z; [|discriminate].
        apply (f_equal (@List.length _)) in Z. rewrite length_rev in Z. discriminate. }
    apply (leading_space_unique (rev a) (rev a') _ _ l l');
      auto using forallb_rev; now rewrite hd_error_rev. }
  rewrite <- (rev_involutive (c :: t)), R. apply rev_involutive.
Qed.

End TrimFacts.


(** C8. With no examples, or with the examples absent, Few-Shot returns the
    prompt as it is; so does Keyword-Injection with no keywords. *)
Theorem addFewShot_injectKeywords_identity (prompt : jsstring) :
  addFewShot prompt (Some []) = prompt
  /\ addFewShot prompt None = prompt
  /\ injectKeywords prompt (Some []) = prompt
  /\ injectKeywords prompt None = prompt.
Proof. repeat split. Qed.

(** C9. With no constraints, or with the constraints absent, Tighten still
    puts the fixed directive and the prefix before the prompt, so it never
    returns the prompt unchanged. *)
Theorem tightenInstructions_without_constraints (prompt : jsstring) :
  tightenInstructions prompt (Some [])
  = str "Instruction: Be concise and precise." ++ [LF] ++ str "User: " ++ prompt
  /\ tightenInstructions prompt None
     = str "Instruction: Be concise and precise." ++ [LF] ++ str "User: " ++ prompt
  /\ tightenInstructions prompt (Some []) <> prompt
  /\ tightenInstructions prompt None <> prompt.
Proof.
  assert (N : str "Instruction: Be concise and precise." ++ [LF] ++ str "User: " ++ prompt
              <> prompt).
  { intros E. apply (f_equal (@List.length codeUnit)) in E.
    rewrite !length_app in E. simpl in E. lia. }
  repeat split; exact N.
Qed.

(** C3. A request whose [basePrompt] is absent or empty is answered with the
    error alone (status 400): no identifier is drawn and no variant is
    built. *)
Theorem generateVariations_requires_basePrompt
        {UC : UnicodeCase} (uuidv4 : nat -> jsstring)
        (req : GenerateVariations.body) (n : nat) :
  GenerateVariations.basePrompt req = None
  \/ GenerateVariations.basePrompt req = Some [] ->
  generateVariations uuidv4 req n = Some (ErrorJson 400 (str "basePrompt required"), n).
Proof.
  intros H. unfold generateVariations. destruct H as [-> | ->]; reflexivity.
Qed.

(** The guard at work on a request with an empty [basePrompt], after seven
    identifiers have been drawn. *)
Lemma generateVariations_requires_basePrompt_witness :
  generateVariations (UC := plainCase) decimal
    {| GenerateVariations.basePrompt := Some [];
       GenerateVariations.keywords := Some [str "cats"];
       GenerateVariations.examples := None;
       GenerateVariations.constraints := None |} 7
  = Some (ErrorJson 400 (str "basePrompt required"), 7).
Proof.
  apply generateVariations_requires_basePrompt. right. reflexivity.
Defined.

(** C2. For a non-empty [basePrompt] the answer holds exactly five variants,
    in the order role priming, few-shot, tighten, paraphrase, keyword
    injection; each prompt is its transformer applied to the base prompt and
    the matching input of the request, and each evaluation is what
    [evaluatePrompt] returns for that prompt with the request's keywords and
    no test case. *)
Theorem generateVariations_five_variants
        {UC : UnicodeCase} (uuidv4 : nat -> jsstring)
        (req : GenerateVariations.body) (n : nat) (base : jsstring) :
  GenerateVariations.basePrompt req = Some base ->
  base <> [] ->
  let keywords := orEmpty (GenerateVariations.keywords req) in
  let examples := orEmpty (GenerateVariations.examples req) in
  let constraints := orEmpty (GenerateVariations.constraints req) in
  let p1 := addSystemRole base
              (str "You are an expert assistant with deep domain knowledge.") in
  let p2 := addFewShot base (Some examples) in
  let p3 := tightenInstructions base (Some constraints) in
  let p4 := paraphrasePrompt base in
  let p5 := injectKeywords base (Some keywords) in
  exists e1 e2 e3 e4 e5,
    generateVariations uuidv4 req n
    = Some (VariationsJson base
              [ {| variation := {| id := uuidv4 n; type := str "system-role:expert";
                                   prompt := p1 |};
                   evaluation := e1 |};
                {| variation := {| id := uuidv4 (1 + n); type := str "few-shot";
                                   prompt := p2 |};
                   evaluation := e2 |};
                {| variation := {| id := uuidv4 (2 + n); type := str "tight-constraints";
                                   prompt := p3 |};
                   evaluation := e3 |};
                {| variation := {| id := uuidv4 (3 + n); type := str "paraphrase";
                                   prompt := p4 |};
                   evaluation := e4 |};
                {| variation := {| id := uuidv4 (4 + n); type := str "keyword-injection";
                                   prompt := p5 |};
                   evaluation := e5 |} ],
            5 + n)
    /\ evaluatePrompt p1 keywords [] = Some e1
    /\ evaluatePrompt p2 keywords [] = Some e2
    /\ evaluatePrompt p3 keywords [] = Some e3
    /\ evaluatePrompt p4 keywords [] = Some e4
    /\ evaluatePrompt p5 keywords [] = Some e5.
Proof.
  intros Hbase Hne keywords examples constraints p1 p2 p3 p4 p5.
  exists (scores p1 keywords []), (scores p2 keywords []), (scores p3 keywords []),
         (scores p4 keywords []), (scores p5 keywords []).
  split; [|repeat split; apply evaluatePrompt_scores].
  unfold generateVariations. rewrite Hbase.
  destruct base as [|c base]; [contradiction|].
  cbn [missing List.length Nat.eqb text].
  unfold hbind, fresh, lift, hret. cbn [app mapM prompt].
  rewrite !evaluatePrompt_scores. reflexivity.
Qed.

(** The scenario of section 8: the five variants of "Tell me about cats",
    with [decimal] as the supply of identifiers. *)
Lemma generateVariations_five_variants_witness :
  exists e1 e2 e3 e4 e5,
    generateVariations (UC := plainCase) decimal
      {| GenerateVariations.basePrompt := Some (str "Tell me about cats");
         GenerateVariations.keywords := None;
         GenerateVariations.examples := None;
         GenerateVariations.constraints := None |} 0
    = Some (VariationsJson (str "Tell me about cats")
              [ {| variation :=
                     {| id := str "0"; type := str "system-role:expert";
                        prompt := addSystemRole (str "Tell me about cats")
                          (str "You are an expert assistant with deep domain knowledge.") |};
                   evaluation := e1 |};
                {| variation :=
                     {| id := str "1"; type := str "few-shot";
                        prompt := str "Tell me about cats" |};
                   evaluation := e2 |};
                {| variation :=
                     {| id := str "2"; type := str "tight-constraints";
                        prompt := tightenInstructions (str "Tell me about cats") (Some []) |};
                   evaluation := e3 |};
                {| variation :=
                     {| id := str "3"; type := str "paraphrase";
                        prompt := str "Tell me about cats" |};
                   evaluation := e4 |};
                {| variation :=
                     {| id := str "4"; type := str "keyword-injection";
                        prompt := str "Tell me about cats" |};
                   evaluation := e5 |} ],
            5)
    /\ overall e1 = 26%Z.
Proof.
  destruct (generateVariations_five_variants (UC := plainCase) decimal
              {| GenerateVariations.basePrompt := Some (str "Tell me about cats");
                 GenerateVariations.keywords := None;
                 GenerateVariations.examples := None;
                 GenerateVariations.constraints := None |} 0
              (str "Tell me about cats") eq_refl ltac:(discriminate))
    as (e1 & e2 & e3 & e4 & e5 & H & H1 & _).
  exists e1, e2, e3, e4, e5. split; [exact H|].
  vm_compute in H1. injection H1 as <-. reflexivity.
Defined.

(** C4 (as amended).  [evaluatePrompt] itself takes the empty prompt and
    scores its clarity against length 0, which gives 40.  The evaluate
    operation answers with the missing-prompt error when the prompt is absent
    and when it is the empty string, and with an Evaluation for every other
    prompt. *)
Theorem evaluate_requires_nonempty_prompt
        {UC : UnicodeCase} (keywords : option (list jsstring))
        (testCases : option (list TestCase)) (n : nat) :
  (exists ev,
      evaluatePrompt [] (orEmpty keywords) (orEmpty testCases) = Some ev
      /\ clarity ev = 40%Z)
  /\ evaluate {| Evaluate.prompt := None; Evaluate.keywords := keywords;
                 Evaluate.testCases := testCases |} n
     = Some (ErrorJson 400 (str "prompt required"), n)
  /\ evaluate {| Evaluate.prompt := Some []; Evaluate.keywords := keywords;
                 Evaluate.testCases := testCases |} n
     = Some (ErrorJson 400 (str "prompt required"), n)
  /\ (forall c p,
         exists ev,
           evaluatePrompt (c :: p) (orEmpty keywords) (orEmpty testCases) = Some ev
           /\ evaluate {| Evaluate.prompt := Some (c :: p); Evaluate.keywords := keywords;
                          Evaluate.testCases := testCases |} n
              = Some (EvaluationJson (c :: p) ev, n)).
Proof.
  split; [|split; [|split]]; try reflexivity.
  - exists (scores [] (orEmpty keywords) (orEmpty testCases)).
    split; [apply evaluatePrompt_scores|]. vm_compute. reflexivity.
  - intros c p. exists (scores (c :: p) (orEmpty keywords) (orEmpty testCases)).
    split; [apply evaluatePrompt_scores|].
    unfold evaluate, hbind, lift, hret.
    cbn [Evaluate.prompt Evaluate.keywords Evaluate.testCases missing List.length
         Nat.eqb text].
    rewrite evaluatePrompt_scores. reflexivity.
Qed.

(** C4, as first stated, fails: the evaluate operation answers the empty
    prompt with the missing-prompt error. *)
Lemma evaluate_rejects_empty_prompt :
  evaluate (UC := plainCase)
    {| Evaluate.prompt := Some []; Evaluate.keywords := None;
       Evaluate.testCases := None |} 0
  = Some (ErrorJson 400 (str "prompt required"), 0).
Proof. reflexivity. Qed.

(* ================================================================== *)
(** ** The source text on concrete inputs *)
(* ================================================================== *)

(** The regular expression literals of the source parse to the terms used
    above. *)
Lemma regexp_literals :
  RegExp_new (str "\bplease\b") (str "ig") = Some re_please
  /\ RegExp_new (str "\bCreate\b") (str "ig") = Some re_Create
  /\ RegExp_new (str "\bDescribe\b") (str "ig") = Some re_Describe
  /\ RegExp_new (str "[.*+?^${}()|[\]\\]") (str "g") = Some re_special.
Proof. repeat split. Qed.

(** [fl] and [SpecFloat] give the same percentage for every fraction with a
    denominator up to 40; the quotient 23/40 shows the rounding at work:
    the exact value is 57.5, the binary64 product lies just below it. *)
Example percentage_agrees_with_SpecFloat :
  forallb (fun f => (percentage (fst f) (snd f)
                     =? percentageSpecFloat (fst f) (snd f))%Z) (fractions 40) = true.
Proof. vm_compute. reflexivity. Qed.

Example percentage_23_40 : percentage 23 40 = 57%Z /\ percentage 1 8 = 13%Z.
Proof. split; vm_compute; reflexivity. Qed.

Example escapeRegExp_sample :
  escapeRegExp (UC := plainCase) (str "a.b*c (x) [y] {z} ^$ | \ C++ ?")
  = str "a\.b\*c \(x\) \[y\] \{z\} \^\$ \| \\ C\+\+ \?".
Proof. vm_compute. reflexivity. Qed.

(** The evaluation scenario of section 8. *)
Example evaluatePrompt_scenario :
  evaluatePrompt (UC := plainCase)
    (str "Please provide output in exact JSON format, limit to 3 items.") [str "JSON"] []
  = Some {| clarity := 71; specificity := 100; keywordCoverage := 100; testScore := 0;
            overall := 68; foundKeywords := [str "JSON"] |}.
Proof. vm_compute. reflexivity. Qed.

Example cat_is_not_found_in_category :
  option_map foundKeywords
    (evaluatePrompt (UC := plainCase) (str "a category, Cat. concatenate")
                    [str "cat"; str "categ"; str "CATEGORY"] [])
  = Some [str "cat"; str "CATEGORY"]
  /\ option_map foundKeywords
       (evaluatePrompt (UC := plainCase) (str "concatenate category") [str "cat"] [])
     = Some [].
Proof. split; vm_compute; reflexivity. Qed.

Example paraphrasePrompt_sample :
  paraphrasePrompt (UC := plainCase)
    (str "  Please Create a summary, PLEASE describe pleased createx.  ")
  = str "Generate a summary,  Summarize pleased createx.".
Proof. vm_compute. reflexivity. Qed.

(** The paraphrase scenario of section 8, on a prompt of 200 code units. *)
Example paraphrasePrompt_scenario :
  let long := str "Please Create a summary" ++ repeat (cu "x") 177 in
  List.length long = 200
  /\ paraphrasePrompt (UC := plainCase) long
     = str "Generate a summary" ++ repeat (cu "x") 92 ++ str "..."
  /\ List.length (paraphrasePrompt (UC := plainCase) long) = 113.
Proof. vm_compute. repeat split. Qed.

Example addFewShot_sample :
  addFewShot (str "P") (Some [ {| input := str "i1"; output := str "o1" |};
                               {| input := str "i2"; output := str "o2" |} ])
  = str "Example 1:" ++ [LF] ++ str "Input: i1" ++ [LF] ++ str "Output: o1" ++ [LF; LF]
    ++ str "Example 2:" ++ [LF] ++ str "Input: i2" ++ [LF] ++ str "Output: o2" ++ [LF; LF]
    ++ str "Now, given the user input, respond concisely." ++ [LF] ++ str "User: P".
Proof. vm_compute. reflexivity. Qed.

Example tightenInstructions_sample :
  tightenInstructions (str "P") (Some [str "a"; str "b"])
  = str "Instruction: a; b; Be concise and precise." ++ [LF] ++ str "User: P".
Proof. vm_compute. reflexivity. Qed.

Example injectKeywords_sample :
  injectKeywords (str "P") (Some [str "a"; str "b"])
  = str "P" ++ [LF; LF] ++ str "Keywords to include: a, b.".
Proof. vm_compute. reflexivity. Qed.
(* ================================================================== *)
(** ** Values that binary64 holds exactly *)
(* ================================================================== *)

Section ExactFacts.
Local Open Scope Q_scope.

Lemma pow2_nonneg (j : Z) : (0 <= j)%Z -> pow2 j == inject_Z (2 ^ j).
Proof. intros H. unfold pow2. rewrite Zpower_Qpower by exact H. reflexivity. Qed.

Lemma pow2_add (a b : Z) : pow2 (a + b) == pow2 a * pow2 b.
Proof. unfold pow2. apply Qpower_plus. discriminate. Qed.

Lemma pow2_pos (e : Z) : 0 < pow2 e.
Proof. unfold pow2. apply Qpower_0_lt. reflexivity. Qed.

Lemma ilog2_lt (a : Q) (j : Z) :
  0 < a -> a < inject_Z (2 ^ j) -> (0 <= j)%Z -> (ilog2 a < j)%Z.
Proof.
  intros Ha Hj H0. unfold ilog2.
  assert (Hk : (Z.log2 (Qnum a) - Z.log2 (Z.pos (Qden a)) <= j)%Z).
  { assert (L : a <= inject_Z (2 ^ j)) by (apply Qlt_le_weak; exact Hj).
    unfold Qle in L. simpl in L. rewrite Z.mul_1_r in L.
    apply Z.log2_le_mono in L.
    rewrite Z.mul_comm, Z.log2_mul_pow2 in L by lia. lia. }
  destruct (Qle_bool (pow2 _) a) eqn:B; [|lia].
  apply Qle_bool_iff in B.
  destruct (Z.eq_dec (Z.log2 (Qnum a) - Z.log2 (Z.pos (Qden a))) j) as [E|]; [|lia].
  rewrite E, (pow2_nonneg j H0) in B. exfalso.
  apply (Qlt_irrefl a). apply Qlt_le_trans with (inject_Z (2 ^ j)); assumption.
Qed.

Lemma roundEven_int (x : Q) (n : Z) : x == inject_Z n -> roundEven x = n.
Proof.
  intros E. unfold roundEven.
  assert (F : Qfloor x = n) by (rewrite E; apply Qfloor_Z).
  rewrite F.
  assert (Z0 : x - inject_Z n == 0) by (rewrite E; ring).
  assert (L : x - inject_Z n < 1 # 2) by (rewrite Z0; reflexivity).
  rewrite Qlt_alt in L. rewrite L. reflexivity.
Qed.

(** A positive multiple [m * 2^k] of a power of two is kept by the rounding
    when it needs at most 53 bits. *)
Lemma roundPos_exact (a : Q) (m k : Z) :
  0 < a -> a == inject_Z m * pow2 k ->
  (-53 <= k <= 0)%Z -> a < inject_Z (2 ^ (53 + k)) ->
  roundPos a == a.
Proof.
  intros Ha E Hk Hlt. unfold roundPos.
  set (e := Z.max (ilog2 a - 52) (-1074)).
  assert (He : (e <= k)%Z).
  { pose proof (ilog2_lt a (53 + k) Ha Hlt ltac:(lia)). unfold e. lia. }
  assert (X : a / pow2 e == inject_Z (m * 2 ^ (k - e))).
  { rewrite inject_Z_mult, <- (pow2_nonneg (k - e)) by lia.
    rewrite E. replace k with ((k - e) + e)%Z at 1 by lia.
    rewrite pow2_add. field. apply Qnot_eq_sym, Qlt_not_eq, pow2_pos. }
  rewrite (roundEven_int _ _ X).
  rewrite inject_Z_mult, <- (pow2_nonneg (k - e)) by lia.
  rewrite E. replace k with ((k - e) + e)%Z at 2 by lia.
  rewrite pow2_add. ring.
Qed.

Lemma fl_exact (q : Q) (m k : Z) :
  q == inject_Z m * pow2 k ->
  (-53 <= k <= 0)%Z -> Qabs q < inject_Z (2 ^ (53 + k)) ->
  fl q == q.
Proof.
  intros E Hk Hlt. unfold fl. destruct q as [n d]. simpl Qnum.
  destruct n as [|p|p].
  - reflexivity.
  - apply (roundPos_exact _ m k); [reflexivity | exact E | exact Hk |].
    exact Hlt.
  - assert (N : - (Z.neg p # d) == inject_Z (- m) * pow2 k).
    { rewrite E, inject_Z_opp. ring. }
    rewrite (roundPos_exact _ (- m) k); [ring | reflexivity | exact N | exact Hk |].
    exact Hlt.
Qed.

Lemma fl_int (q : Q) (m : Z) :
  q == inject_Z m -> (Z.abs m < 2 ^ 53)%Z -> fl q == inject_Z m.
Proof.
  intros E H. transitivity q; [|exact E]. apply (fl_exact q m 0); [|lia|].
  - rewrite E. unfold pow2. simpl. ring.
  - rewrite E. change (Qabs (inject_Z m)) with (inject_Z (Z.abs m)).
    rewrite <- Zlt_Qlt. exact H.
Qed.

Lemma fl_half (q : Q) (m : Z) :
  q == inject_Z m * (1 # 2) -> (Z.abs m < 2 ^ 53)%Z -> fl q == inject_Z m * (1 # 2).
Proof.
  intros E H. transitivity q; [|exact E]. apply (fl_exact q m (-1)); [exact E|lia|].
  rewrite E, Qabs_Qmult. change (Qabs (inject_Z m)) with (inject_Z (Z.abs m)).
  change (Qabs (1 # 2)) with (1 # 2).
  apply Qlt_le_trans with (inject_Z (2 ^ 53) * (1 # 2)).
  - apply Qmult_lt_r; [reflexivity|]. rewrite <- Zlt_Qlt. exact H.
  - vm_compute. discriminate.
Qed.

End ExactFacts.
Section ClarityFacts.
Context {UC : UnicodeCase}.
Local Open Scope Q_scope.

Lemma clarityOf_closed (prompt : jsstring) :
  (Z.of_nat (List.length prompt) < 2 ^ 53)%Z ->
  clarityOf prompt
  = Z.max 10 (100 - Z.abs (120 - Z.of_nat (List.length prompt)) / 2).
Proof.
  intros Hn. unfold clarityOf. set (n := Z.of_nat (List.length prompt)) in *.
  assert (N0 : (0 <= n)%Z) by (unfold n; lia).
  set (d := Z.abs (120 - n)).
  assert (S1 : subtract 120 (inject_Z n) == inject_Z (120 - n)).
  { unfold subtract. apply fl_int; [|lia].
    unfold Z.sub. rewrite inject_Z_plus, inject_Z_opp. reflexivity. }
  assert (S2 : Math_abs (subtract 120 (inject_Z n)) == inject_Z d).
  { unfold Math_abs. rewrite S1. reflexivity. }
  assert (S3 : multiply (Math_abs (subtract 120 (inject_Z n))) (1 # 2)
               == inject_Z d * (1 # 2)).
  { unfold multiply. apply fl_half; [|unfold d; lia]. rewrite S2. reflexivity. }
  assert (S4 : subtract 100 (multiply (Math_abs (subtract 120 (inject_Z n))) (1 # 2))
               == inject_Z (200 - d) * (1 # 2)).
  { unfold subtract at 1. apply fl_half; [|unfold d; lia].
    rewrite S3. unfold Z.sub. rewrite inject_Z_plus, inject_Z_opp.
    change (inject_Z 200) with 200. ring. }
  assert (R : Math_round (subtract 100
                (multiply (Math_abs (subtract 120 (inject_Z n))) (1 # 2)))
              = ((201 - d) / 2)%Z).
  { unfold Math_round. rewrite S4, Zdiv_Qdiv. apply Qfloor_comp.
    unfold Z.sub. rewrite !inject_Z_plus, !inject_Z_opp.
    change (inject_Z 200) with 200. change (inject_Z 201) with 201.
    change (inject_Z 2) with 2. field. }
  rewrite R. assert (D0 : (0 <= d)%Z) by (unfold d; lia).
  pose proof (Z.div_mod (201 - d) 2 ltac:(lia)).
  pose proof (Z.mod_pos_bound (201 - d) 2 ltac:(lia)).
  pose proof (Z.div_mod d 2 ltac:(lia)).
  pose proof (Z.mod_pos_bound d 2 ltac:(lia)).
  lia.
Qed.

Lemma percentage_none (whole : nat) : percentage 0 whole = 0%Z.
Proof.
  unfold percentage, multiply, divide.
  assert (Z1 : fl (inject_Z (Z.of_nat 0) / inject_Z (Z.of_nat whole)) = 0).
  { unfold fl. reflexivity. }
  rewrite Z1. reflexivity.
Qed.

Lemma percentage_all (whole : nat) : (0 < whole)%nat -> percentage whole whole = 100%Z.
Proof.
  intros H. unfold percentage, multiply, divide.
  set (w := inject_Z (Z.of_nat whole)).
  assert (W : ~ w == 0).
  { unfold w. change 0 with (inject_Z 0). rewrite inject_Z_injective. lia. }
  assert (D : fl (w / w) == inject_Z 1).
  { apply fl_int; [|reflexivity]. change (inject_Z 1) with 1. field. exact W. }
  assert (M : fl (fl (w / w) * 100) == inject_Z 100).
  { apply fl_int; [|reflexivity]. rewrite D. reflexivity. }
  unfold Math_round. rewrite M. reflexivity.
Qed.

End ClarityFacts.
(* ================================================================== *)
(** ** Letter case and surroundings of a match *)
(* ================================================================== *)

Section CaseFacts.
Context {UC : UnicodeCase}.

Lemma Canonicalize_word (x y : codeUnit) :
  Canonicalize true x = Canonicalize true y -> isWordChar x = isWordChar y.
Proof.
  intros E.
  destruct (isWordChar x) eqn:X.
  - symmetry. apply (charMatches_word x y X). unfold charMatches.
    rewrite E. apply N.eqb_refl.
  - destruct (isWordChar y) eqn:Y; [|reflexivity].
    rewrite <- X. apply (charMatches_word y x Y). unfold charMatches.
    rewrite E. apply N.eqb_refl.
Qed.

Lemma sameUpToCase_cons (ic : bool) (x : codeUnit) (r rest' : jsstring) :
  sameUpToCase ic (x :: r) rest' ->
  exists x' r', rest' = x' :: r' /\ Canonicalize ic x = Canonicalize ic x'
                /\ sameUpToCase ic r r'.
Proof.
  unfold sameUpToCase. destruct rest' as [|x' r']; [discriminate|].
  cbn [map]. intros E. injection E as E1 E2. exists x', r'. auto.
Qed.

Lemma sameUpToCase_nil (ic : bool) (rest' : jsstring) :
  sameUpToCase ic [] rest' -> rest' = [].
Proof. unfold sameUpToCase. destruct rest'; [reflexivity | discriminate]. Qed.

Lemma sameUpToCase_length (ic : bool) (p p' : jsstring) :
  sameUpToCase ic p p' -> List.length p = List.length p'.
Proof.
  unfold sameUpToCase. intros E. apply (f_equal (@List.length codeUnit)) in E.
  rewrite !length_map in E. exact E.
Qed.

(** A match of literal terms depends on the input only up to letter case. *)
Lemma matchTerms_caseBlind (ts : list term) :
  literalTerms ts = true ->
  forall prev prev' rest rest',
    isWordCharAt prev = isWordCharAt prev' ->
    sameUpToCase true rest rest' ->
    matchTerms true ts prev rest = matchTerms true ts prev' rest'.
Proof.
  induction ts as [|t ts IH]; intros L prev prev' rest rest' P R; [reflexivity|].
  cbn [literalTerms forallb] in L. apply andb_true_iff in L. destruct L as [Lt L].
  destruct t; try discriminate Lt; cbn [matchTerms].
  - destruct rest as [|x r].
    + rewrite (sameUpToCase_nil true rest' R). reflexivity.
    + destruct (sameUpToCase_cons true x r rest' R) as (x' & r' & -> & Ex & Rr).
      unfold charMatches. rewrite Ex.
      destruct (Canonicalize true c =? Canonicalize true x')%N; [|reflexivity].
      rewrite (IH L (Some x) (Some x') r r'); [reflexivity| |exact Rr].
      exact (Canonicalize_word x x' Ex).
  - assert (H : isWordCharAt (hd_error rest) = isWordCharAt (hd_error rest')).
    { destruct rest as [|x r].
      - rewrite (sameUpToCase_nil true rest' R). reflexivity.
      - destruct (sameUpToCase_cons true x r rest' R) as (x' & r' & -> & Ex & Rr).
        exact (Canonicalize_word x x' Ex). }
    rewrite P, H. destruct (xorb _ _); [|reflexivity].
    apply (IH L); assumption.
Qed.

Lemma searchFrom_caseBlind (ts : list term) :
  literalTerms ts = true ->
  forall rest rest' prev prev' index,
    isWordCharAt prev = isWordCharAt prev' ->
    sameUpToCase true rest rest' ->
    searchFrom true ts prev rest index = searchFrom true ts prev' rest' index.
Proof.
  intros L. induction rest as [|x r IH]; intros rest' prev prev' index P R.
  - rewrite (sameUpToCase_nil true rest' R). cbn [searchFrom].
    rewrite (matchTerms_caseBlind ts L prev prev' [] [] P eq_refl). reflexivity.
  - destruct (sameUpToCase_cons true x r rest' R) as (x' & r' & -> & Ex & Rr).
    cbn [searchFrom].
    rewrite (matchTerms_caseBlind ts L prev prev' (x :: r) (x' :: r') P R).
    destruct (matchTerms true ts prev' (x' :: r')); [reflexivity|].
    apply IH; [exact (Canonicalize_word x x' Ex) | exact Rr].
Qed.

Lemma wordTerms_literal (w : jsstring) : literalTerms (wordTerms w) = true.
Proof.
  unfold wordTerms, literalTerms. cbn [forallb]. rewrite forallb_app.
  cbn [forallb]. rewrite andb_true_r. induction w as [|c w IH]; [reflexivity|exact IH].
Qed.

Lemma matchesWord_prompt_case (w p p' : jsstring) :
  sameUpToCase true p p' -> matchesWord w p = matchesWord w p'.
Proof.
  intros R. unfold matchesWord, test. cbn [wordRegExp source flags ignoreCase flags_i].
  rewrite (searchFrom_caseBlind (wordTerms w) (wordTerms_literal w) p p' None None 0
             eq_refl R).
  reflexivity.
Qed.

Lemma startsWith_word_case (w w' rest : jsstring) :
  sameUpToCase true w w' -> startsWith true w rest = startsWith true w' rest.
Proof.
  revert w' rest. induction w as [|c w IH]; intros w' rest R.
  - rewrite (sameUpToCase_nil true w' R). reflexivity.
  - destruct (sameUpToCase_cons true c w w' R) as (c' & w1 & -> & Ec & Rw).
    destruct rest as [|x rest]; [reflexivity|]. cbn [startsWith].
    unfold charMatches. rewrite Ec, (IH w1 rest Rw). reflexivity.
Qed.

Lemma matchesWord_word_case (w w' p : jsstring) :
  sameUpToCase true w w' -> matchesWord w p = matchesWord w' p.
Proof.
  intros R. unfold matchesWord, test. cbn [wordRegExp source flags ignoreCase flags_i].
  assert (M : forall prev rest,
             matchTerms true (wordTerms w) prev rest
             = matchTerms true (wordTerms w') prev rest).
  { intros prev rest. unfold wordTerms. cbn [matchTerms].
    destruct (xorb _ _); [|reflexivity].
    rewrite !matchTerms_chars, (startsWith_word_case w w' rest R),
      (sameUpToCase_length true w w' R). reflexivity. }
  assert (S : forall rest prev index,
             searchFrom true (wordTerms w) prev rest index
             = searchFrom true (wordTerms w') prev rest index).
  { induction rest as [|x r IH]; intros prev index; cbn [searchFrom]; rewrite M;
      destruct (matchTerms _ _ _ _); try reflexivity. apply IH. }
  rewrite S. reflexivity.
Qed.

End CaseFacts.
Section ScoreShape.
Context {UC : UnicodeCase}.

Lemma scores_ranges (prompt : jsstring) (keywords : list jsstring)
      (testCases : list TestCase) :
  let ev := scores prompt keywords testCases in
  (10 <= clarity ev <= 100)%Z
  /\ (20 <= specificity ev <= 100)%Z
  /\ (0 <= keywordCoverage ev <= 100)%Z
  /\ (0 <= testScore ev <= 100)%Z
  /\ overall ev
     = ((clarity ev + specificity ev + keywordCoverage ev + testScore ev + 2) / 4)%Z.
Proof.
  unfold scores. cbn [clarity specificity keywordCoverage testScore overall].
  set (c := clarityOf prompt).
  set (s := Z.min 100 (countWords prompt specificityWords * 25 + 20)).
  set (k := if (List.length keywords =? 0)%nat then 0%Z else _).
  set (t := if (List.length testCases =? 0)%nat then 0%Z else _).
  assert (Hc : (10 <= c <= 100)%Z) by (unfold c, clarityOf; lia).
  assert (Hs : (20 <= s <= 100)%Z).
  { unfold s. rewrite countWords_filter. lia. }
  assert (Hk : (0 <= k <= 100)%Z).
  { unfold k. destruct (Nat.eqb_spec (List.length keywords) 0); [lia|].
    apply percentage_range; [apply filter_length_le | lia]. }
  assert (Ht : (0 <= t <= 100)%Z).
  { unfold t. destruct (Nat.eqb_spec (List.length testCases) 0); [lia|].
    apply percentage_range; [|lia].
    rewrite countPasses_filter. apply filter_length_le. }
  repeat split; try lia. apply mean_of_four. lia.
Qed.

Lemma passes_ext (p p' : jsstring) (t : TestCase) :
  (forall w, matchesWord w p = matchesWord w p') -> passes p t = passes p' t.
Proof.
  intros H. unfold passes. induction (orEmpty (mustInclude t)) as [|r rs IH];
    [reflexivity|]. cbn [forallb]. rewrite H, IH. reflexivity.
Qed.

Lemma scores_ext (p p' : jsstring) (keywords : list jsstring) (testCases : list TestCase) :
  List.length p = List.length p' ->
  (forall w, matchesWord w p = matchesWord w p') ->
  scores p keywords testCases = scores p' keywords testCases.
Proof.
  intros Hl Hm. unfold scores, clarityOf.
  rewrite !countWords_filter, !countPasses_filter, Hl.
  rewrite (filter_ext _ _ Hm keywords), (filter_ext _ _ Hm specificityWords).
  rewrite (filter_ext _ _ (fun t => passes_ext p p' t Hm) testCases). reflexivity.
Qed.

Lemma filter_Forall2 {A} (R : A -> A -> Prop) (f g : A -> bool) (l l' : list A) :
  Forall2 R l l' -> (forall x y, R x y -> f x = g y) ->
  Forall2 R (filter f l) (filter g l').
Proof.
  intros H E. induction H as [|x y l l' Hxy H IH]; [constructor|].
  cbn [filter]. rewrite (E x y Hxy). destruct (g y); [constructor|]; assumption.
Qed.

Lemma filter_all {A} (f : A -> bool) (l : list A) :
  (forall x, In x l -> f x = true) -> filter f l = l.
Proof.
  induction l as [|x l IH]; intros H; [reflexivity|]. cbn [filter].
  rewrite (H x (or_introl eq_refl)), IH; [reflexivity|].
  intros y Hy. apply H. right. exact Hy.
Qed.

Lemma filter_none {A} (f : A -> bool) (l : list A) :
  (forall x, In x l -> f x = false) -> filter f l = [].
Proof.
  induction l as [|x l IH]; intros H; [reflexivity|]. cbn [filter].
  rewrite (H x (or_introl eq_refl)), IH; [reflexivity|].
  intros y Hy. apply H. right. exact Hy.
Qed.

Lemma filter_length_mono {A} (f g : A -> bool) (l : list A) :
  (forall x, In x l -> f x = true -> g x = true) ->
  (List.length (filter f l) <= List.length (filter g l))%nat.
Proof.
  induction l as [|x l IH]; intros H; [cbn; lia|]. cbn [filter].
  assert (IH' : (List.length (filter f l) <= List.length (filter g l))%nat).
  { apply IH. intros y Hy. apply H. right. exact Hy. }
  destruct (f x) eqn:F.
  - rewrite (H x (or_introl eq_refl) F). cbn. lia.
  - destruct (g x); cbn; lia.
Qed.

End ScoreShape.

(** X1. The clarity score is 100 minus half the distance of the prompt's
    length from 120 (the half rounded down), and never less than 10: it is
    100 exactly for the lengths 119 to 121 and 10 exactly from length 300
    on. *)
Theorem clarity_is_distance_from_120
        {UC : UnicodeCase} (prompt : jsstring) (keywords : list jsstring)
        (testCases : list TestCase) :
  (Z.of_nat (List.length prompt) < 2 ^ 53)%Z ->
  exists ev,
    evaluatePrompt prompt keywords testCases = Some ev
    /\ clarity ev = Z.max 10 (100 - Z.abs (120 - Z.of_nat (List.length prompt)) / 2)
    /\ (clarity ev = 100%Z <-> (119 <= List.length prompt <= 121)%nat)
    /\ (clarity ev = 10%Z <-> (300 <= List.length prompt)%nat).
Proof.
  intros H. exists (scores prompt keywords testCases).
  split; [apply evaluatePrompt_scores|].
  unfold scores. cbn [clarity]. rewrite (clarityOf_closed prompt H).
  set (n := Z.of_nat (List.length prompt)).
  assert (N : n = Z.of_nat (List.length prompt)) by reflexivity.
  pose proof (Z.div_mod (Z.abs (120 - n)) 2 ltac:(lia)).
  pose proof (Z.mod_pos_bound (Z.abs (120 - n)) 2 ltac:(lia)).
  repeat split; lia.
Qed.

(** What the bound on the length asks for holds of a short prompt. *)
Lemma clarity_is_distance_from_120_witness :
  exists ev,
    evaluatePrompt (UC := plainCase) (str "Tell me about cats") [] [] = Some ev
    /\ clarity ev = Z.max 10 (100 - Z.abs (120 - 18) / 2)
    /\ (clarity ev = 100%Z <-> (119 <= 18 <= 121)%nat)
    /\ (clarity ev = 10%Z <-> (300 <= 18)%nat).
Proof.
  apply (clarity_is_distance_from_120 (UC := plainCase) (str "Tell me about cats") [] []).
  vm_compute. reflexivity.
Defined.

(** X2. Keyword coverage is 0 when no keyword is found and 100 when every
    keyword of a non-empty list is found; the test score is 0 when no test
    case passes and 100 when every test case of a non-empty list passes. *)
Theorem coverage_and_test_score_extremes
        {UC : UnicodeCase} (prompt : jsstring) (keywords : list jsstring)
        (testCases : list TestCase) :
  exists ev,
    evaluatePrompt prompt keywords testCases = Some ev
    /\ (foundKeywords ev = [] -> keywordCoverage ev = 0%Z)
    /\ (keywords <> [] -> foundKeywords ev = keywords -> keywordCoverage ev = 100%Z)
    /\ ((forall t, In t testCases -> passes prompt t = false) -> testScore ev = 0%Z)
    /\ (testCases <> [] -> (forall t, In t testCases -> passes prompt t = true) ->
        testScore ev = 100%Z).
Proof.
  exists (scores prompt keywords testCases).
  split; [apply evaluatePrompt_scores|].
  unfold scores. cbn [foundKeywords keywordCoverage testScore].
  split; [|split; [|split]].
  - intros ->. destruct (_ =? _)%nat; [reflexivity | apply percentage_none].
  - intros Hne ->. destruct keywords as [|k ks]; [contradiction|].
    cbn [List.length Nat.eqb]. apply percentage_all. cbn. lia.
  - intros H. rewrite countPasses_filter, (filter_none _ _ H).
    destruct (_ =? _)%nat; [reflexivity | apply percentage_none].
  - intros Hne H. rewrite countPasses_filter, (filter_all _ _ H).
    destruct testCases as [|t ts]; [contradiction|].
    cbn [List.length Nat.eqb]. apply percentage_all. cbn. lia.
Qed.

(** X3. A test case whose [mustInclude] is missing or empty passes on every
    prompt; when all the test cases of a non-empty list are of this kind the
    test score is 100. *)
Theorem test_case_without_terms_passes
        {UC : UnicodeCase} (prompt : jsstring) (keywords : list jsstring)
        (testCases : list TestCase) :
  exists ev,
    evaluatePrompt prompt keywords testCases = Some ev
    /\ (testCases <> [] ->
        (forall t, In t testCases -> mustInclude t = None \/ mustInclude t = Some []) ->
        testScore ev = 100%Z).
Proof.
  exists (scores prompt keywords testCases).
  split; [apply evaluatePrompt_scores|].
  unfold scores. cbn [testScore]. intros Hne H.
  rewrite countPasses_filter, filter_all.
  - destruct testCases as [|t ts]; [contradiction|].
    cbn [List.length Nat.eqb]. apply percentage_all. cbn. lia.
  - intros t Ht. unfold passes. destruct (H t Ht) as [-> | ->]; reflexivity.
Qed.

(** X4. The evaluation does not depend on the letter case of the prompt:
    two prompts that differ only in letter case get the same Evaluation. *)
Theorem evaluatePrompt_ignores_prompt_case
        {UC : UnicodeCase} (p p' : jsstring) (keywords : list jsstring)
        (testCases : list TestCase) :
  sameUpToCase true p p' ->
  evaluatePrompt p keywords testCases = evaluatePrompt p' keywords testCases.
Proof.
  intros R. rewrite !evaluatePrompt_scores. f_equal.
  apply scores_ext; [exact (sameUpToCase_length true p p' R)|].
  intros w. apply matchesWord_prompt_case, R.
Qed.

Lemma evaluatePrompt_ignores_prompt_case_witness :
  evaluatePrompt (UC := plainCase) (str "Use JSON only") [str "json"] []
  = evaluatePrompt (UC := plainCase) (str "use json ONLY") [str "json"] [].
Proof.
  apply evaluatePrompt_ignores_prompt_case. reflexivity.
Defined.

(** X5. The evaluation does not depend on the letter case of the keywords:
    two keyword lists that differ only in letter case give the same scores,
    and the same keywords are found, each in its own spelling. *)
Theorem evaluatePrompt_ignores_keyword_case
        {UC : UnicodeCase} (prompt : jsstring) (keywords keywords' : list jsstring)
        (testCases : list TestCase) :
  Forall2 (sameUpToCase true) keywords keywords' ->
  exists ev ev',
    evaluatePrompt prompt keywords testCases = Some ev
    /\ evaluatePrompt prompt keywords' testCases = Some ev'
    /\ clarity ev = clarity ev'
    /\ specificity ev = specificity ev'
    /\ keywordCoverage ev = keywordCoverage ev'
    /\ testScore ev = testScore ev'
    /\ overall ev = overall ev'
    /\ Forall2 (sameUpToCase true) (foundKeywords ev) (foundKeywords ev').
Proof.
  intros R. exists (scores prompt keywords testCases), (scores prompt keywords' testCases).
  split; [apply evaluatePrompt_scores|]. split; [apply evaluatePrompt_scores|].
  assert (F : Forall2 (sameUpToCase true)
                (filter (fun k => matchesWord k prompt) keywords)
                (filter (fun k => matchesWord k prompt) keywords')).
  { apply filter_Forall2; [exact R|].
    intros x y Hxy. apply matchesWord_word_case, Hxy. }
  assert (K : (if (List.length keywords =? 0)%nat then 0%Z
               else percentage (List.length (filter (fun k => matchesWord k prompt) keywords))
                               (List.length keywords))
              = (if (List.length keywords' =? 0)%nat then 0%Z
                 else percentage
                        (List.length (filter (fun k => matchesWord k prompt) keywords'))
                        (List.length keywords'))).
  { rewrite (Forall2_length R), (Forall2_length F). reflexivity. }
  unfold scores. cbn [clarity specificity keywordCoverage testScore overall foundKeywords].
  rewrite K. repeat split; try reflexivity. exact F.
Qed.

Lemma evaluatePrompt_ignores_keyword_case_witness :
  exists ev ev',
    evaluatePrompt (UC := plainCase) (str "Use JSON only") [str "json"] [] = Some ev
    /\ evaluatePrompt (UC := plainCase) (str "Use JSON only") [str "Json"] [] = Some ev'
    /\ clarity ev = clarity ev'
    /\ specificity ev = specificity ev'
    /\ keywordCoverage ev = keywordCoverage ev'
    /\ testScore ev = testScore ev'
    /\ overall ev = overall ev'
    /\ Forall2 (sameUpToCase (UC := plainCase) true) (foundKeywords ev) (foundKeywords ev').
Proof.
  apply evaluatePrompt_ignores_keyword_case.
  constructor; [reflexivity | constructor].
Defined.

(** X6. The overall score is at least 8; it is at most 75 when there is no
    test case and at most 50 when there is neither a keyword nor a test
    case. *)
Theorem overall_bounds
        {UC : UnicodeCase} (prompt : jsstring) (keywords : list jsstring)
        (testCases : list TestCase) :
  exists ev,
    evaluatePrompt prompt keywords testCases = Some ev
    /\ (8 <= overall ev)%Z
    /\ (testCases = [] -> testScore ev = 0%Z /\ (overall ev <= 75)%Z)
    /\ (keywords = [] -> testCases = [] -> (overall ev <= 50)%Z).
Proof.
  exists (scores prompt keywords testCases).
  split; [apply evaluatePrompt_scores|].
  destruct (scores_ranges prompt keywords testCases) as (Hc & Hs & Hk & Ht & Ho).
  set (ev := scores prompt keywords testCases) in *.
  pose proof (Z.div_mod (clarity ev + specificity ev + keywordCoverage ev
                         + testScore ev + 2) 4 ltac:(lia)) as D.
  pose proof (Z.mod_pos_bound (clarity ev + specificity ev + keywordCoverage ev
                               + testScore ev + 2) 4 ltac:(lia)) as M.
  split; [lia|]. split.
  - intros E. assert (T : testScore ev = 0%Z) by (unfold ev; rewrite E; reflexivity).
    split; [exact T | lia].
  - intros Ek Et.
    assert (T : testScore ev = 0%Z) by (unfold ev; rewrite Et; reflexivity).
    assert (K : keywordCoverage ev = 0%Z) by (unfold ev; rewrite Ek; reflexivity).
    lia.
Qed.
(* ================================================================== *)
(** ** A prompt inside a frame *)
(* ================================================================== *)

Section FrameFacts.
Context {UC : UnicodeCase}.

Lemma lastOr_app (prev : option codeUnit) (a b : jsstring) :
  lastOr prev (a ++ b) = lastOr (lastOr prev a) b.
Proof. revert prev. induction a as [|x a IH]; intros prev; [reflexivity|apply IH]. Qed.

Lemma lastOr_word (q q' : option codeUnit) (a : jsstring) :
  isWordCharAt q = isWordCharAt q' ->
  isWordCharAt (lastOr q a) = isWordCharAt (lastOr q' a).
Proof. intros H. destruct a as [|x a]; [exact H | reflexivity]. Qed.

Lemma matchTerms_extend (ts : list term) :
  literalTerms ts = true ->
  forall prev prev' rest suffix n,
    isWordCharAt prev = isWordCharAt prev' ->
    isWordCharAt (hd_error suffix) = false ->
    matchTerms true ts prev rest = Some n ->
    matchTerms true ts prev' (rest ++ suffix) = Some n.
Proof.
  induction ts as [|t ts IH]; intros L prev prev' rest suffix n P S M; [exact M|].
  cbn [literalTerms forallb] in L. apply andb_true_iff in L. destruct L as [Lt L].
  destruct t; try discriminate Lt; cbn [matchTerms] in M |- *.
  - destruct rest as [|x r]; [discriminate|]. cbn [app].
    destruct (charMatches true c x); [|discriminate].
    destruct (matchTerms true ts (Some x) r) as [m|] eqn:E; [|discriminate].
    rewrite (IH L (Some x) (Some x) r suffix m eq_refl S E). exact M.
  - assert (H : isWordCharAt (hd_error (rest ++ suffix)) = isWordCharAt (hd_error rest)).
    { destruct rest; [exact S | reflexivity]. }
    rewrite H, <- P. destruct (xorb _ _); [|discriminate].
    apply (IH L prev prev' rest suffix n P S M).
Qed.

Lemma searchFrom_found (ic : bool) (ts : list term) :
  forall rest prev index,
    isSome (searchFrom ic ts prev rest index) = true
    <-> exists a b n, rest = a ++ b /\ matchTerms ic ts (lastOr prev a) b = Some n.
Proof.
  induction rest as [|x r IH]; intros prev index; cbn [searchFrom].
  - destruct (matchTerms ic ts prev []) as [n|] eqn:M; cbn [isSome]; split.
    + intros _. exists [], [], n. split; [reflexivity | exact M].
    + reflexivity.
    + discriminate.
    + intros (a & b & n & E & Hm). destruct a; [|discriminate].
      destruct b; [|discriminate]. cbn in Hm. congruence.
  - destruct (matchTerms ic ts prev (x :: r)) as [n|] eqn:M; cbn [isSome].
    + split; [|reflexivity]. intros _. exists [], (x :: r), n.
      split; [reflexivity | exact M].
    + rewrite IH. split.
      * intros (a & b & n & -> & Hm). exists (x :: a), b, n.
        split; [reflexivity | exact Hm].
      * intros (a & b & n & E & Hm). destruct a as [|y a].
        -- cbn in E, Hm. subst b. congruence.
        -- cbn [app] in E. injection E as -> ->. exists a, b, n.
           split; [reflexivity | exact Hm].
Qed.

Lemma matchesWord_found (w prompt : jsstring) :
  matchesWord w prompt = true
  <-> exists a b n,
      prompt = a ++ b /\ matchTerms true (wordTerms w) (lastOr None a) b = Some n.
Proof.
  unfold matchesWord, test. cbn [wordRegExp source flags ignoreCase flags_i].
  rewrite <- (searchFrom_found true (wordTerms w) prompt None 0).
  destruct (searchFrom _ _ _ _ _); reflexivity.
Qed.

(** A term that is found in a prompt is found in the prompt inside a
    frame. *)
Lemma matchesWord_framed (w v p : jsstring) :
  frames v p -> matchesWord w p = true -> matchesWord w v = true.
Proof.
  intros (prefix & suffix & -> & Hp & Hs) H.
  apply matchesWord_found in H. destruct H as (a & b & n & -> & M).
  apply matchesWord_found. exists (prefix ++ a), (b ++ suffix), n. split.
  - rewrite <- !app_assoc. reflexivity.
  - apply (matchTerms_extend (wordTerms w) (wordTerms_literal w) (lastOr None a));
      [|exact Hs|exact M].
    rewrite lastOr_app. apply lastOr_word. symmetry. exact Hp.
Qed.

Lemma frames_refl (p : jsstring) : frames p p.
Proof. exists [], []. rewrite app_nil_r. repeat split. Qed.

Lemma frames_after (prefix p : jsstring) :
  frames ((prefix ++ str "User: ") ++ p) p.
Proof.
  exists (prefix ++ str "User: "), []. rewrite app_nil_r. split; [reflexivity|].
  split; [|reflexivity]. rewrite lastOr_app. reflexivity.
Qed.

Lemma addSystemRole_frames (p role : jsstring) : frames (addSystemRole p role) p.
Proof.
  unfold addSystemRole.
  replace (str "System: " ++ role ++ [LF] ++ str "User: " ++ p)
    with (((str "System: " ++ role ++ [LF]) ++ str "User: ") ++ p)
    by (rewrite <- !app_assoc; reflexivity).
  apply frames_after.
Qed.

Lemma addFewShot_frames (p : jsstring) (exs : option (list Example)) :
  frames (addFewShot p exs) p.
Proof.
  unfold addFewShot. destruct exs as [exs|]; [|apply frames_refl].
  destruct (List.length exs =? 0)%nat; [apply frames_refl|].
  match goal with
  | |- frames (?f ++ ?a ++ ?b ++ ?c ++ str "User: " ++ p) p =>
      replace (f ++ a ++ b ++ c ++ str "User: " ++ p)
        with (((f ++ a ++ b ++ c) ++ str "User: ") ++ p)
        by (rewrite <- !app_assoc; reflexivity)
  end.
  apply frames_after.
Qed.

Lemma tightenInstructions_frames (p : jsstring) (cs : option (list jsstring)) :
  frames (tightenInstructions p cs) p.
Proof.
  unfold tightenInstructions.
  match goal with
  | |- frames (?a ++ ?c ++ ?b ++ ?d ++ str "User: " ++ p) p =>
      replace (a ++ c ++ b ++ d ++ str "User: " ++ p)
        with (((a ++ c ++ b ++ d) ++ str "User: ") ++ p)
        by (rewrite <- !app_assoc; reflexivity)
  end.
  apply frames_after.
Qed.

Lemma injectKeywords_frames (p : jsstring) (kws : option (list jsstring)) :
  frames (injectKeywords p kws) p.
Proof.
  unfold injectKeywords. destruct kws as [ks|]; [|apply frames_refl].
  destruct (List.length ks =? 0)%nat; [apply frames_refl|].
  exists [], ([LF; LF] ++ str "Keywords to include: " ++ join (str ", ") ks ++ str ".").
  repeat split.
Qed.

Lemma scores_framed (v p : jsstring) (keywords : list jsstring)
      (testCases : list TestCase) :
  frames v p ->
  incl (foundKeywords (scores p keywords testCases))
       (foundKeywords (scores v keywords testCases))
  /\ (specificity (scores p keywords testCases)
      <= specificity (scores v keywords testCases))%Z
  /\ (forall t, passes p t = true -> passes v t = true).
Proof.
  intros F. unfold scores. cbn [foundKeywords specificity]. split; [|split].
  - intros k Hk. apply filter_In in Hk. destruct Hk as [Hin Hm].
    apply filter_In. split; [exact Hin|]. exact (matchesWord_framed k v p F Hm).
  - rewrite !countWords_filter.
    pose proof (filter_length_mono (fun w => matchesWord w p) (fun w => matchesWord w v)
                  specificityWords
                  (fun w _ Hm => matchesWord_framed w v p F Hm)).
    lia.
  - intros t. unfold passes. rewrite !forallb_forall. intros H r Hr.
    exact (matchesWord_framed r v p F (H r Hr)).
Qed.

End FrameFacts.

(** X7. Role priming, few-shot, tighten and keyword injection never hide a
    term of the base prompt: every keyword found in the base prompt is found
    in the transformed prompt, the specificity does not go down, and every
    test case that passes on the base prompt still passes. *)
Theorem framing_keeps_matches
        {UC : UnicodeCase} (p role : jsstring) (examples : option (list Example))
        (constraints kws : option (list jsstring))
        (keywords : list jsstring) (testCases : list TestCase) :
  exists ev,
    evaluatePrompt p keywords testCases = Some ev
    /\ forall v,
        In v [addSystemRole p role; addFewShot p examples;
              tightenInstructions p constraints; injectKeywords p kws] ->
        exists ev',
          evaluatePrompt v keywords testCases = Some ev'
          /\ incl (foundKeywords ev) (foundKeywords ev')
          /\ (specificity ev <= specificity ev')%Z
          /\ (forall t, passes p t = true -> passes v t = true).
Proof.
  exists (scores p keywords testCases). split; [apply evaluatePrompt_scores|].
  intros v Hv. exists (scores v keywords testCases).
  split; [apply evaluatePrompt_scores|].
  apply scores_framed.
  cbn [In] in Hv. destruct Hv as [<- | [<- | [<- | [<- | []]]]].
  - apply addSystemRole_frames.
  - apply addFewShot_frames.
  - apply tightenInstructions_frames.
  - apply injectKeywords_frames.
Qed.
(* ================================================================== *)
(** ** The transformers and the evaluation of their output *)
(* ================================================================== *)

Section TransformerFacts.
Context {UC : UnicodeCase}.

Lemma join_member (sep : jsstring) (ks : list jsstring) (k : jsstring) :
  In k ks ->
  exists a b,
    join sep ks = a ++ k ++ b
    /\ (a = [] \/ exists a', a = a' ++ sep)
    /\ (b = [] \/ exists b', b = sep ++ b').
Proof.
  induction ks as [|x ks IH]; [contradiction|]. intros H.
  destruct ks as [|y ks].
  - destruct H as [<- | []]. exists [], []. cbn [join]. rewrite app_nil_r. auto.
  - change (join sep (x :: y :: ks)) with (x ++ sep ++ join sep (y :: ks)).
    destruct H as [<- | H].
    + exists [], (sep ++ join sep (y :: ks)). split; [reflexivity|]. split; [auto|].
      right. exists (join sep (y :: ks)). reflexivity.
    + destruct (IH H) as (a & b & E & Ha & Hb). rewrite E.
      exists (x ++ sep ++ a), b. split; [rewrite <- !app_assoc; reflexivity|].
      split; [|exact Hb]. right. destruct Ha as [-> | (a' & ->)].
      * exists x. rewrite app_nil_r. reflexivity.
      * exists (x ++ sep ++ a'). rewrite <- !app_assoc. reflexivity.
Qed.

Lemma join_sep_end (sep : jsstring) (cs : list jsstring) :
  cs <> [] -> join sep cs ++ sep = flat_map (fun c => c ++ sep) cs.
Proof.
  induction cs as [|c cs IH]; [contradiction|]. intros _.
  destruct cs as [|d cs].
  - cbn. rewrite app_nil_r. reflexivity.
  - change (join sep (c :: d :: cs)) with (c ++ sep ++ join sep (d :: cs)).
    change (flat_map (fun c0 => c0 ++ sep) (c :: d :: cs))
      with ((c ++ sep) ++ flat_map (fun c0 => c0 ++ sep) (d :: cs)).
    rewrite <- IH by discriminate. rewrite <- !app_assoc. reflexivity.
Qed.

(** Every listed keyword stands as a whole word in the line that
    [injectKeywords] appends. *)
Lemma injected_keyword_occurs (p : jsstring) (ks : list jsstring) (k : jsstring) :
  In k ks -> occursWholeWord k (injectKeywords p (Some ks)) = true.
Proof.
  intros H. unfold injectKeywords.
  destruct (List.length ks =? 0)%nat eqn:L.
  { destruct ks; [contradiction | discriminate]. }
  destruct (join_member (str ", ") ks k H) as (a & b & E & Ha & Hb).
  apply occursFrom_iff.
  exists ((p ++ [LF; LF]) ++ str "Keywords to include: " ++ a), k, (b ++ str ".").
  split; [rewrite E, <- !app_assoc; reflexivity|].
  split; [reflexivity|]. split.
  - rewrite !lastOr_app. destruct Ha as [-> | (a' & ->)]; [reflexivity|].
    rewrite lastOr_app. reflexivity.
  - destruct Hb as [-> | (b' & ->)]; reflexivity.
Qed.

Lemma tightened_concise_occurs (p : jsstring) (cs : option (list jsstring)) :
  occursWholeWord (str "concise") (tightenInstructions p cs) = true.
Proof.
  unfold tightenInstructions.
  match goal with
  | |- occursWholeWord _ (?a ++ ?c ++ _ ++ ?d) = true =>
      apply occursFrom_iff;
      exists (a ++ c ++ str "Be "), (str "concise"), (str " and precise." ++ d)
  end.
  split; [rewrite <- !app_assoc; reflexivity|]. split; [reflexivity|]. split.
  - rewrite !lastOr_app. reflexivity.
  - reflexivity.
Qed.

Lemma isWhiteSpace_not_word (c : codeUnit) :
  isWhiteSpace c = true -> isWordChar c = false.
Proof.
  intros H. destruct (isWordChar c) eqn:W; [|reflexivity].
  apply isWordChar_spec in W. unfold isWhiteSpace in H.
  apply orb_true_iff in H. destruct H as [H | H].
  - apply mem_In in H. cbv in H. each_member H; lia.
  - unfold inRange in H. apply andb_true_iff in H.
    rewrite !N.leb_le in H. lia.
Qed.

Lemma trim_split (s : jsstring) :
  exists ws1 ws2,
    s = ws1 ++ trim s ++ ws2
    /\ forallb isWhiteSpace ws1 = true /\ forallb isWhiteSpace ws2 = true.
Proof. exact (proj1 (trim_trimmedOf s)). Qed.

Lemma whitespace_lastOr (ws : jsstring) :
  forall prev,
    isWordCharAt prev = false -> forallb isWhiteSpace ws = true ->
    isWordCharAt (lastOr prev ws) = false.
Proof.
  induction ws as [|c ws IH]; intros prev P F; [exact P|].
  cbn [forallb] in F. apply andb_true_iff in F. destruct F as [Fc F].
  cbn [lastOr]. apply IH; [|exact F]. exact (isWhiteSpace_not_word c Fc).
Qed.

Lemma whitespace_hd (ws : jsstring) :
  forallb isWhiteSpace ws = true -> isWordCharAt (hd_error ws) = false.
Proof.
  destruct ws as [|c ws]; [reflexivity|]. cbn [forallb]. intros F.
  apply andb_true_iff in F. exact (isWhiteSpace_not_word c (proj1 F)).
Qed.

(** [trim] removes no whole-word occurrence and brings none about. *)
Lemma occurs_trim (w s : jsstring) :
  occursWholeWord w (trim s) = true -> occursWholeWord w s = true.
Proof.
  intros H. apply occursFrom_iff in H.
  destruct H as (before & occ & after & E & M & P & A).
  destruct (trim_split s) as (ws1 & ws2 & Es & F1 & F2).
  apply occursFrom_iff. exists (ws1 ++ before), occ, (after ++ ws2).
  split; [rewrite Es, E, <- !app_assoc; reflexivity|]. split; [exact M|]. split.
  - rewrite lastOr_app.
    rewrite (lastOr_word (lastOr None ws1) None before); [exact P|].
    exact (whitespace_lastOr ws1 None eq_refl F1).
  - destruct after; [exact (whitespace_hd ws2 F2) | exact A].
Qed.

Lemma escapeUnit_length (s : jsstring) :
  List.length (flat_map escapeUnit s) = (List.length s + syntaxCount s)%nat.
Proof.
  unfold syntaxCount. induction s as [|c s IH]; [reflexivity|].
  cbn [flat_map filter]. rewrite length_app, IH. unfold escapeUnit.
  destruct (isSyntaxCharacter c); cbn [List.length]; lia.
Qed.

Lemma syntaxCount_plain (s : jsstring) : syntaxCount s = 0%nat <-> plain s = true.
Proof.
  unfold syntaxCount, plain. induction s as [|c s IH]; [split; reflexivity|].
  cbn [filter forallb]. destruct (isSyntaxCharacter c); cbn [negb andb List.length].
  - split; discriminate.
  - exact IH.
Qed.

End TransformerFacts.

(** X8. The Escaper returns a string unchanged exactly when the string has no
    syntax character; in general the result is longer by the number of syntax
    characters, and two different strings never have the same escape. *)
Theorem escapeRegExp_fixed_points {UC : UnicodeCase} (s t : jsstring) :
  (escapeRegExp s = s <-> plain s = true)
  /\ List.length (escapeRegExp s) = (List.length s + syntaxCount s)%nat
  /\ (escapeRegExp s = escapeRegExp t -> s = t).
Proof.
  rewrite !escapeRegExp_units. split; [|split].
  - split; [|apply escapeUnit_plain].
    intros E. apply syntaxCount_plain.
    pose proof (escapeUnit_length s) as L. rewrite E in L. lia.
  - apply escapeUnit_length.
  - intros E. pose proof (parseTerms_escaped s []) as Ps.
    pose proof (parseTerms_escaped t []) as Pt.
    rewrite !app_nil_r in Ps, Pt. rewrite E, Pt in Ps. cbn in Ps.
    rewrite !app_nil_r in Ps. injection Ps as Ps. symmetry.
    clear - Ps. revert t Ps. induction s as [|c s IH]; intros [|d t] H; try discriminate.
    + reflexivity.
    + cbn [map] in H. injection H as -> H. f_equal. apply IH, H.
Qed.

(** X9. The Tighten transformer always writes the word "concise" into the
    prompt, so the specificity of its output is at least 45. *)
Theorem tightenInstructions_raises_specificity
        {UC : UnicodeCase} (p : jsstring) (constraints : option (list jsstring))
        (keywords : list jsstring) (testCases : list TestCase) :
  exists ev,
    evaluatePrompt (tightenInstructions p constraints) keywords testCases = Some ev
    /\ (45 <= specificity ev)%Z.
Proof.
  exists (scores (tightenInstructions p constraints) keywords testCases).
  split; [apply evaluatePrompt_scores|].
  unfold scores. cbn [specificity]. rewrite countWords_filter.
  set (v := tightenInstructions p constraints).
  assert (H : In (str "concise") (filter (fun w => matchesWord w v) specificityWords)).
  { apply filter_In. split; [cbv; tauto|].
    rewrite matchesWord_occurs by reflexivity. apply tightened_concise_occurs. }
  destruct (filter (fun w => matchesWord w v) specificityWords); [contradiction|].
  cbn [List.length]. lia.
Qed.

(** X10. Every constraint is written into the instruction line followed by
    "; ", in the given order, and the line reads the same for an empty list
    of constraints as for none. *)
Theorem tightenInstructions_lists_constraints (p : jsstring) (cs : list jsstring) :
  tightenInstructions p (Some cs)
  = str "Instruction: " ++ flat_map (fun c => c ++ str "; ") cs
    ++ str "Be concise and precise." ++ [LF] ++ str "User: " ++ p
  /\ tightenInstructions p (Some []) = tightenInstructions p None.
Proof.
  split; [|reflexivity].
  unfold tightenInstructions. destruct cs as [|c cs]; [reflexivity|].
  cbn [List.length Nat.eqb]. rewrite join_sep_end by discriminate. reflexivity.
Qed.

(** X11. After keyword injection every keyword that begins and ends with a
    word character is found in the prompt: evaluated with the same keywords,
    the output has all of them among the found keywords and a keyword
    coverage of 100. *)
Theorem injectKeywords_full_coverage
        {UC : UnicodeCase} (p : jsstring) (keywords : list jsstring)
        (testCases : list TestCase) :
  keywords <> [] ->
  (forall k, In k keywords -> wordEnds k = true) ->
  exists ev,
    evaluatePrompt (injectKeywords p (Some keywords)) keywords testCases = Some ev
    /\ foundKeywords ev = keywords
    /\ keywordCoverage ev = 100%Z.
Proof.
  intros Hne Hw. exists (scores (injectKeywords p (Some keywords)) keywords testCases).
  split; [apply evaluatePrompt_scores|].
  unfold scores. cbn [foundKeywords keywordCoverage].
  rewrite filter_all.
  - split; [reflexivity|]. destruct keywords as [|k ks]; [contradiction|].
    cbn [List.length Nat.eqb]. apply percentage_all. cbn. lia.
  - intros k Hk. rewrite (matchesWord_occurs k _ (Hw k Hk)).
    apply injected_keyword_occurs, Hk.
Qed.

Lemma injectKeywords_full_coverage_witness :
  exists ev,
    evaluatePrompt (UC := plainCase)
      (injectKeywords (str "Tell me about cats") (Some [str "JSON"; str "step-by-step"]))
      [str "JSON"; str "step-by-step"] []
    = Some ev
    /\ foundKeywords ev = [str "JSON"; str "step-by-step"]
    /\ keywordCoverage ev = 100%Z.
Proof.
  apply injectKeywords_full_coverage; [discriminate|].
  intros k Hk. cbn [In] in Hk. destruct Hk as [<- | [<- | []]]; reflexivity.
Defined.

(** X12. The paraphrase is never longer than 120 code units. *)
Theorem paraphrasePrompt_length {UC : UnicodeCase} (prompt : jsstring) :
  (List.length (paraphrasePrompt prompt) <= 120)%nat.
Proof.
  unfold paraphrasePrompt, slice0.
  match goal with |- context [(120 <? List.length ?q)%nat] => set (p := q) end.
  destruct (Nat.ltb_spec 120 (List.length p)) as [H|H]; [|exact H].
  rewrite length_app, length_firstn. change (List.length (str "...")) with 3%nat. lia.
Qed.

(** X13. On a prompt in which none of the three words "please", "Create"
    and "Describe" stands as a whole word, the paraphrase only trims the
    prompt and cuts it; a prompt of at most 120 code units without white
    space at its ends is returned as it is. *)
Theorem paraphrasePrompt_without_the_words {UC : UnicodeCase} (prompt : jsstring) :
  occursWholeWord (str "please") prompt = false ->
  occursWholeWord (str "Create") prompt = false ->
  occursWholeWord (str "Describe") prompt = false ->
  paraphrasePrompt prompt = cut (trim prompt)
  /\ (trim prompt = prompt -> (List.length prompt <= 120)%nat ->
      paraphrasePrompt prompt = prompt).
Proof.
  intros H1 H2 H3.
  assert (E : paraphrasePrompt prompt = cut (trim prompt)).
  { unfold paraphrasePrompt, re_please, re_Create, re_Describe, slice0, cut.
    rewrite !replace_word by reflexivity.
    rewrite (replaceWord_without_occurrence _ _ prompt H1).
    assert (T2 : occursWholeWord (str "Create") (trim prompt) = false).
    { destruct (occursWholeWord (str "Create") (trim prompt)) eqn:O; [|reflexivity].
      rewrite (occurs_trim _ _ O) in H2. discriminate. }
    assert (T3 : occursWholeWord (str "Describe") (trim prompt) = false).
    { destruct (occursWholeWord (str "Describe") (trim prompt)) eqn:O; [|reflexivity].
      rewrite (occurs_trim _ _ O) in H3. discriminate. }
    rewrite (replaceWord_without_occurrence _ _ _ T2).
    rewrite (replaceWord_without_occurrence _ _ _ T3). reflexivity. }
  split; [exact E|]. intros T L. rewrite E, T. unfold cut.
  apply Nat.ltb_ge in L. rewrite L. reflexivity.
Qed.

Lemma paraphrasePrompt_without_the_words_witness :
  paraphrasePrompt (UC := plainCase) (str "Tell me about cats")
  = cut (trim (str "Tell me about cats"))
  /\ (trim (str "Tell me about cats") = str "Tell me about cats" ->
      (List.length (str "Tell me about cats") <= 120)%nat ->
      paraphrasePrompt (UC := plainCase) (str "Tell me about cats")
      = str "Tell me about cats").
Proof.
  apply paraphrasePrompt_without_the_words; reflexivity.
Defined.

(** X14. On a request whose properties are absent or of their types (the
    base prompt a string, the keywords and the constraints arrays of strings,
    the examples an array of pairs of strings) the generate-variations
    handler answers either with the error of status 400, drawing no
    identifier, or with variants that were all evaluated without test cases,
    so that each has a test score of 0 and an overall score between 8 and
    75.  Nothing is said of a request with a property of another type, such
    as [null] for the keywords. *)
Theorem generateVariations_answers
        {UC : UnicodeCase} (uuidv4 : nat -> jsstring)
        (req : GenerateVariations.body) (n : nat) :
  match generateVariations uuidv4 req n with
  | Some (VariationsJson _ vs, _) =>
      Forall (fun v : Variant =>
                testScore (evaluation v) = 0%Z
                /\ (8 <= overall (evaluation v) <= 75)%Z) vs
  | Some (ErrorJson status _, n') => status = 400%nat /\ n' = n
  | _ => False
  end.
Proof.
  assert (B : forall p ks,
             testScore (scores p ks []) = 0%Z
             /\ (8 <= overall (scores p ks []) <= 75)%Z).
  { intros p ks. destruct (scores_ranges p ks []) as (Hc & Hs & Hk & Ht & Ho).
    set (ev := scores p ks []) in *.
    assert (T : testScore ev = 0%Z) by reflexivity.
    pose proof (Z.div_mod (clarity ev + specificity ev + keywordCoverage ev
                           + testScore ev + 2) 4 ltac:(lia)).
    pose proof (Z.mod_pos_bound (clarity ev + specificity ev + keywordCoverage ev
                                 + testScore ev + 2) 4 ltac:(lia)).
    split; [exact T | lia]. }
  unfold generateVariations.
  destruct (missing (GenerateVariations.basePrompt req)); [split; reflexivity|].
  unfold hbind, fresh, lift, hret. cbn [app mapM prompt].
  rewrite !evaluatePrompt_scores. cbn [bind ret].
  repeat constructor; apply B.
Qed.

(* ================================================================== *)
(** ** The name of an exported file *)
(* ================================================================== *)

Section ExportFacts.

Lemma decimal_digits n : Forall (fun c => inRange 48%N 57%N c = true) (decimal n).
Proof.
  unfold decimal.
  assert (E : forall d, Forall (fun c => inRange 48%N 57%N c = true)
                               (str (DecimalString.NilEmpty.string_of_uint d))).
  { induction d; cbn; try constructor; auto. }
  unfold DecimalString.NilZero.string_of_uint.
  destruct (Nat.to_uint n) eqn:D; try (rewrite <- D; apply E).
  cbn. constructor; auto.
Qed.

Lemma str_inj a b : str a = str b -> a = b.
Proof.
  unfold str. revert b.
  induction a as [|x a IH]; intros [|y b] E; cbn in E; try discriminate; auto.
  injection E as E1 E2. f_equal; auto.
  rewrite <- (ascii_N_embedding x), <- (ascii_N_embedding y).
  unfold cu in E1. now rewrite E1.
Qed.

Lemma to_uint_nonnil n : Nat.to_uint n <> Decimal.Nil.
Proof.
  rewrite <- (DecimalNat.Unsigned.of_to n) at 1.
  rewrite DecimalNat.Unsigned.to_of. apply DecimalFacts.unorm_nonnil.
Qed.

Lemma decimal_inj n m : decimal n = decimal m -> n = m.
Proof.
  unfold decimal. intros E. apply str_inj in E.
  apply DecimalNat.Unsigned.to_uint_inj.
  assert (A := DecimalString.NilZero.usu (Nat.to_uint n) (to_uint_nonnil n)).
  assert (B := DecimalString.NilZero.usu (Nat.to_uint m) (to_uint_nonnil m)).
  rewrite E in A. rewrite A in B. now injection B.
Qed.

Lemma digit_not_space c : inRange 48%N 57%N c = true -> isWhiteSpace c = false.
Proof.
  unfold inRange, isWhiteSpace, mem. cbn [existsb]. intros R.
  apply andb_true_iff in R as [R1 R2].
  apply N.leb_le in R1. apply N.leb_le in R2.
  repeat (apply orb_false_iff; split); try reflexivity;
    try (apply N.eqb_neq; lia).
  apply andb_false_iff. left. apply N.leb_gt. lia.
Qed.

Lemma existsb_app_false {A} (f : A -> bool) xs ys :
  existsb f xs = false -> existsb f ys = false -> existsb f (xs ++ ys) = false.
Proof. intros E F. now rewrite existsb_app, E, F. Qed.

Lemma replaceRuns_clean (c : codeUnit -> bool) by_ s :
  existsb c by_ = false -> forall b, existsb c (replaceRuns c by_ b s) = false.
Proof.
  intros B. induction s as [|x s IH]; intros b; cbn; auto.
  destruct (c x) eqn:X.
  - apply existsb_app_false; auto. now destruct b.
  - cbn. now rewrite X, IH.
Qed.

Lemma replaceRuns_same (c : codeUnit -> bool) by_ s :
  existsb c s = false -> replaceRuns c by_ false s = s.
Proof.
  induction s as [|x s IH]; cbn; auto. intros E.
  apply orb_false_iff in E as [X E]. rewrite X. f_equal. auto.
Qed.

Lemma existsb_Forall {A} (f : A -> bool) xs :
  Forall (fun x => f x = false) xs -> existsb f xs = false.
Proof. induction 1; cbn; auto. now rewrite H, IHForall. Qed.

Lemma decimal_clean n : existsb isWhiteSpace (decimal n) = false.
Proof.
  apply existsb_Forall. eapply Forall_impl; [|apply decimal_digits].
  intros c. apply digit_not_space.
Qed.

Lemma exportFileName_clean p n : existsb isWhiteSpace (exportFileName p n) = false.
Proof.
  unfold exportFileName.
  repeat apply existsb_app_false; auto using decimal_clean.
  now apply replaceRuns_clean.
Qed.

(** Two texts that end with an underscore and digits are the same when
    their parts are. *)
Lemma split_at_digits (a a' d d' : jsstring) :
  Forall (fun c => inRange 48%N 57%N c = true) d ->
  Forall (fun c => inRange 48%N 57%N c = true) d' ->
  a ++ cu "_" :: d = a' ++ cu "_" :: d' -> a = a' /\ d = d'.
Proof.
  intros D D' E.
  assert (R : rev d ++ cu "_" :: rev a = rev d' ++ cu "_" :: rev a').
  { apply (f_equal (@rev _)) in E. rewrite !rev_app_distr in E. cbn in E.
    now rewrite <- !app_assoc in E. }
  apply Forall_rev in D, D'.
  assert (G : forall x y u v,
             Forall (fun c => inRange 48%N 57%N c = true) x ->
             Forall (fun c => inRange 48%N 57%N c = true) y ->
             x ++ cu "_" :: u = y ++ cu "_" :: v -> x = y /\ u = v).
  { clear. induction x as [|c x IH]; intros [|e y] u v X Y E; cbn in E.
    - injection E as E. auto.
    - injection E as E1 E2. inversion Y as [|? ? Yc]; subst. discriminate.
    - injection E as E1 E2. inversion X as [|? ? Xc]; subst. discriminate.
    - injection E as E1 E2. inversion X; inversion Y; subst.
      destruct (IH y u v) as [-> ->]; auto. }
  destruct (G _ _ _ _ D D' R) as [Gd Ga].
  split.
  - rewrite <- (rev_involutive a), <- (rev_involutive a'). now rewrite Ga.
  - rewrite <- (rev_involutive d), <- (rev_involutive d'). now rewrite Gd.
Qed.

Lemma exportFileName_inj p n p' n' :
  exportFileName p n = exportFileName p' n' ->
  n = n' /\ replaceRuns isWhiteSpace (str "_") false p
            = replaceRuns isWhiteSpace (str "_") false p'.
Proof.
  unfold exportFileName. intros E.
  set (a := replaceRuns isWhiteSpace (str "_") false p) in *.
  set (a' := replaceRuns isWhiteSpace (str "_") false p') in *.
  change (a ++ str "_" ++ decimal n ++ str ".json")
    with (a ++ (cu "_" :: decimal n) ++ str ".json") in E.
  change (a' ++ str "_" ++ decimal n' ++ str ".json")
    with (a' ++ (cu "_" :: decimal n') ++ str ".json") in E.
  rewrite !app_assoc in E. apply app_inv_tail in E.
  destruct (split_at_digits a a' (decimal n) (decimal n')) as [A D];
    auto using decimal_digits.
  split; auto. now apply decimal_inj.
Qed.

End ExportFacts.

(* ================================================================== *)
(** ** The answers of the model endpoints *)
(* ================================================================== *)

Section ExtractFacts.
Context {H : Host}.

Lemma sameString_refl s : sameString s s = true.
Proof. induction s; cbn; auto. now rewrite N.eqb_refl. Qed.

Lemma join_empty_sep (ts : list jsstring) : join [] ts = List.concat ts.
Proof.
  induction ts as [|t [|u ts] IH]; cbn in *; auto.
  - now rewrite app_nil_r.
  - now rewrite IH.
Qed.

Lemma mapM_map {A B C} (f : B -> option C) (g : A -> B) (h : A -> C) xs :
  (forall x, f (g x) = Some (h x)) -> mapM f (map g xs) = Some (map h xs).
Proof.
  intros E. induction xs as [|x xs IH]; cbn; auto.
  rewrite E. cbn. rewrite IH. reflexivity.
Qed.

Lemma partsText_texts ts : partsText (partsBlock ts) = Some (List.concat ts).
Proof.
  unfold partsText, partsBlock. cbn.
  rewrite (mapM_map _ textPart (fun t => Some (JStr t))).
  - cbn. unfold joinValues.
    rewrite (mapM_map _ (fun t => Some (JStr t)) (fun t => t)).
    + cbn. now rewrite map_id, join_empty_sep.
    + reflexivity.
  - intros t. cbn. now destruct t.
Qed.

Lemma contentText_blocks blocks :
  contentText (Some (JArr (map partsBlock blocks)))
  = Some (join [LF; LF] (map (@List.concat _) blocks)).
Proof.
  unfold contentText. cbn.
  rewrite (mapM_map _ partsBlock (@List.concat _)); auto using partsText_texts.
Qed.

Lemma shapeContent_found fields key cf rest c :
  lookup key fields = Some (JArr (JObj cf :: rest)) ->
  lookup (str "content") cf = Some c -> truthy (Some c) = true ->
  shapeContent (JObj fields) key = Some (Some c).
Proof.
  intros L C T. unfold shapeContent. cbn [getProp bind]. rewrite L.
  cbn [truthy isArray andb first hd_error getProp bind]. rewrite C.
  unfold ret. now rewrite T.
Qed.

Lemma shapeContent_none fields key :
  lookup key fields = None \/ lookup key fields = Some (JArr []) ->
  shapeContent (JObj fields) key = Some None.
Proof. intros [L|L]; unfold shapeContent; cbn; now rewrite L. Qed.

End ExtractFacts.

(* ================================================================== *)
(** ** Properties of the other endpoints *)
(* ================================================================== *)


(** X16. Two exports get the same file name exactly when they are made in
    the same millisecond for project names that are the same once every run
    of white space is one underscore; a project name without white space is
    kept as it is, whatever else it contains. *)
Theorem exportFileName_collisions p n p' n' :
  (exportFileName p n = exportFileName p' n' <->
   n = n' /\ replaceRuns isWhiteSpace (str "_") false p
             = replaceRuns isWhiteSpace (str "_") false p') /\
  (existsb isWhiteSpace p = false ->
   exportFileName p n = p ++ str "_" ++ decimal n ++ str ".json").
Proof.
  split; [split|].
  - apply exportFileName_inj.
  - intros [-> E]. unfold exportFileName. now rewrite E.
  - intros W. unfold exportFileName. now rewrite replaceRuns_same.
Qed.

(** X17. When the first candidate of an answer has an array of blocks as its
    content, each with an array of text parts, the text extracted is the
    blocks' texts, each the concatenation of its parts, separated by an
    empty line; whatever else the answer, the candidate or the other
    candidates hold makes no difference. *)
Theorem extractText_joins_part_texts {H : Host} blocks inCandidate candidates inAnswer :
  extractText
    (JObj ((str "candidates",
            JArr (JObj ((str "content", JArr (map partsBlock blocks)) :: inCandidate)
                    :: candidates))
             :: inAnswer))
  = join [LF; LF] (map (@List.concat _) blocks).
Proof.
  unfold extractText, tryExtract.
  erewrite shapeContent_found; try reflexivity.
  cbn [bind]. now rewrite contentText_blocks.
Qed.

(** X18. When the content of the first candidate is an object, not an
    array, no text is extracted: the answer itself, printed as JSON, is
    what the endpoint hands back as the extracted text. *)
Theorem extractText_object_content_falls_back {H : Host}
        content inCandidate candidates inAnswer :
  let answer :=
    JObj ((str "candidates",
           JArr (JObj ((str "content", JObj content) :: inCandidate) :: candidates))
            :: inAnswer) in
  extractText answer = JSON_stringify true answer.
Proof.
  cbn zeta. unfold extractText, tryExtract.
  now erewrite shapeContent_found by reflexivity.
Qed.

(** X19. An answer without candidates, or with an empty array of them, is
    read through [output] in the same way. *)
Theorem extractText_reads_output {H : Host} fields blocks inOutput outputs :
  lookup (str "candidates") fields = None
  \/ lookup (str "candidates") fields = Some (JArr []) ->
  lookup (str "output") fields
  = Some (JArr (JObj ((str "content", JArr (map partsBlock blocks)) :: inOutput)
                  :: outputs)) ->
  extractText (JObj fields) = join [LF; LF] (map (@List.concat _) blocks).
Proof.
  intros C O. unfold extractText, tryExtract.
  rewrite shapeContent_none by assumption. cbn [bind].
  erewrite shapeContent_found; try eassumption; try reflexivity.
  cbn [bind]. now rewrite contentText_blocks.
Qed.

Lemma extractText_reads_output_witness :
  extractText (H := silentHost)
    (JObj [(str "candidates", JArr []);
           (str "output",
            JArr [JObj [(str "content",
                         JArr (map partsBlock [[str "a"; str "b"]; [str "c"]]))]])])
  = str "ab" ++ [LF; LF] ++ str "c".
Proof.
  apply (extractText_reads_output (H := silentHost)
           [(str "candidates", JArr []);
            (str "output",
             JArr [JObj [(str "content",
                          JArr (map partsBlock [[str "a"; str "b"]; [str "c"]]))]])]
           [[str "a"; str "b"]; [str "c"]] [] []).
  - right. reflexivity.
  - reflexivity.
Defined.


Section HandlerFacts.
Context {H : Host}.

Lemma ok_200 s : ok s = false -> s <> 200%nat.
Proof. intros O ->. discriminate. Qed.

End HandlerFacts.


(** X21. The model list endpoint sends nothing without the API key, and
    with it one GET that carries the key in the [x-goog-api-key] header.  It
    answers 200 exactly when the service responded with a status from 200 to
    299 and a body that parses, then with the parsed list; any other status
    of the service is handed on with the body. *)
Theorem listModels_answers {H : Host} apiKey fetch :
  let requests := fst (listModels apiKey fetch) in
  let reply := snd (listModels apiKey fetch) in
  (requests = [] <-> missing apiKey = true) /\
  (requests = [] -> replyStatus reply = 400%nat) /\
  (forall r, In r requests ->
     requests = [r] /\ method r = str "GET" /\ body r = None /\
     headers r = [(str "x-goog-api-key", text apiKey)] /\
     url r = str "https://generativelanguage.googleapis.com/v1beta/models") /\
  (replyStatus reply = 200%nat <->
   exists r s t v, requests = [r] /\ fetch r = Responded s t /\ ok s = true
                   /\ JSON_parse t = inl v) /\
  (forall r s t v, requests = [r] -> fetch r = Responded s t -> ok s = true ->
     JSON_parse t = inl v -> replyField "raw" reply = Some v) /\
  (forall r s t, requests = [r] -> fetch r = Responded s t -> ok s = false ->
     replyStatus reply = s /\ replyField "body" reply = Some (JStr t)).
Proof.
  cbn zeta. unfold listModels.
  destruct (missing apiKey) eqn:K; cbn [fst snd].
  { repeat split; try discriminate; auto; try contradiction.
    intros (r & s & t & v & E & _). discriminate. }
  set (request := {| url := _ |}).
  split; [split; discriminate|]. split; [discriminate|]. split.
  { intros r [<- | []]. repeat split. }
  destruct (fetch request) as [message | status txt] eqn:F.
  { split; [split|split].
    - discriminate.
    - intros (r & s & t & v & E & G & _). injection E as <-. congruence.
    - intros r s t v E G. injection E as <-. congruence.
    - intros r s t E G. injection E as <-. congruence. }
  destruct (ok status) eqn:O; cbn [negb].
  - destruct (JSON_parse txt) as [json | message] eqn:J.
    + split; [split|split].
      * intros _. exists request, status, txt, json. auto.
      * reflexivity.
      * intros r s t v E G _ J'. injection E as <-. rewrite F in G.
        injection G as <- <-. rewrite J in J'. injection J' as <-.
        reflexivity.
      * intros r s t E G O'. injection E as <-. rewrite F in G.
        injection G as <- <-. congruence.
    + split; [split|split].
      * discriminate.
      * intros (r & s & t & v & E & G & _ & J'). injection E as <-.
        rewrite F in G. injection G as <- <-. congruence.
      * intros r s t v E G _ J'. injection E as <-. rewrite F in G.
        injection G as <- <-. congruence.
      * intros r s t E G O'. injection E as <-. rewrite F in G.
        injection G as <- <-. congruence.
  - assert (N : status <> 200%nat) by now apply ok_200.
    split; [split|split].
    + cbn. intros E. contradiction.
    + intros (r & s & t & v & E & G & O' & _). injection E as <-.
      rewrite F in G. injection G as <- <-. congruence.
    + intros r s t v E G O'. injection E as <-. rewrite F in G.
      injection G as <- <-. congruence.
    + intros r s t E G _. injection E as <-. rewrite F in G.
      injection G as <- <-. split; reflexivity.
Qed.
